(** * SafeguardX: the threat-detection routes of [backend/app/Routes/threat_detect.py]

    A shallow embedding of the anomaly scorer, the in-memory threat and alert
    store, the HTTP handlers that mutate it and the two background
    coroutines, followed by the properties of the specification.

    Conventions of the embedding.
    - A Python [float] is an IEEE 754 binary64 number: Rocq's primitive
      [float], with the same rounding of [+], [*] and [/] and the same
      comparisons (a comparison with NaN is false).
    - A Python [int] is a [Z]; a [str] is a [string] of bytes, and
      [str.lower] is modelled on ASCII letters.
    - A dict with a fixed set of keys is a record; a key that is only
      assigned later in the life of the object is an [option] field.
    - The three module-level lists hold references: a threat dict is
      appended to both [active_threats] and [threat_history], so both lists
      alias one object.  Objects live in [heap]; a reference is an index.
    - [random] and [datetime.now] are oracles: the values they return are
      extra arguments of the function that calls them.
    - A handler is an [async def] without [await]: it runs atomically on the
      event loop.  A background coroutine is cut at its [await]s; each
      segment is one atomic step of [resume], and a coroutine in
      [asyncio.sleep] is not resumed before the sleep has lasted. *)

From Stdlib Require Import ZArith Floats Lia Ascii String.
From stdpp Require Import base option list sorting strings gmap pretty.

Set Warnings "-inexact-float".
Set Default Proof Using "Type".

(** ** Python built-ins *)

Module Py.

(** [min(a, b)]: the second argument replaces the first only when it is
    strictly smaller. *)
Definition min (a b : float) : float :=
  if (b <? a)%float then b else a.

(** [round(x, 2)] for a float: the exact binary value is rounded half-even
    to two decimals (as [dtoa] does) and the decimal [k/100] is read back
    as the nearest double (as [strtod] does; a correctly rounded division
    of two exactly representable numbers gives the same).  Values of
    magnitude [2^52] and above are integers and are returned unchanged. *)
Definition round2 (x : float) : float :=
  match Prim2SF x with
  | S754_finite s m e =>
      if (0 <=? e)%Z then x
      else
        let num := (Z.pos m * 100)%Z in
        let den := (2 ^ (- e))%Z in
        let q := (num / den)%Z in
        let r := (num mod den)%Z in
        let k := if (2 * r <? den)%Z then q
                 else if (den <? 2 * r)%Z then (q + 1)%Z
                 else if Z.even q then q else (q + 1)%Z in
        let y := (of_uint63 (Uint63.of_Z k) / 100)%float in
        if s then (- y)%float else y
  | _ => x
  end.

(** [str.lower] on the ASCII range. *)
Definition lower_char (c : ascii) : ascii :=
  let n := nat_of_ascii c in
  if (65 <=? n)%nat && (n <=? 90)%nat then ascii_of_nat (n + 32) else c.

Fixpoint lower (s : string) : string :=
  match s with
  | EmptyString => EmptyString
  | String c s' => String (lower_char c) (lower s')
  end.

(** [p in s] for strings: [p] occurs in [s] at some offset. *)
Fixpoint contains (p s : string) : bool :=
  if String.prefix p s then true
  else match s with
       | EmptyString => false
       | String _ s' => contains p s'
       end.

(** [d.get(k, dflt)]. *)
Definition get {V} (d : gmap string V) (k : string) (dflt : V) : V :=
  default dflt (d !! k).

(** [random.choice(seq)] is [seq[randbelow(len(seq))]]; [r] is the oracle's
    draw, reduced below the length. *)
Definition choice (seq : list string) (r : nat) : string :=
  default "" (seq !! (r mod length seq)).

(** [x in seq] for a list of strings. *)
Definition in_list (x : string) (seq : list string) : bool :=
  bool_decide (x ∈ seq).

(** [raise HTTPException(status_code, detail)] or a returned value. *)
Inductive result (A : Type) : Type :=
| Return (a : A)
| HTTPException (status_code : Z) (detail : string).
Arguments Return {A} a.
Arguments HTTPException {A} status_code detail.

End Py.

(** ** Request models and the detector *)

Record LogEntry := {
  le_source : string;
  le_level : string;
  le_message : string;
  le_metadata : list (string * string)
}.

Record ThreatResponse := {
  tr_threat_id : Z;
  tr_action : string
}.

Inductive Severity := critical | high | medium | low.

Record Classification := {
  c_severity : Severity;
  c_category : string;
  c_risk_level : Z;
  c_immediate_action : bool
}.

Module AnomalyDetector.

Definition risk_patterns : list string :=
  ["failed login"; "brute force"; "sql injection"; "malware";
   "ddos"; "port scan"; "privilege escalation"; "data exfiltration"].

Definition level_scores : gmap string float :=
  list_to_map [("CRITICAL", 0.4%float); ("ERROR", 0.3%float);
               ("WARN", 0.2%float); ("INFO", 0.1%float)].

(** One turn of the loop [for pattern in self.risk_patterns]. *)
Definition scan (message_lower : string) (score : float) (pattern : string) : float :=
  if Py.contains pattern message_lower then (score + 0.3)%float else score.

(** [detect_anomaly]; [noise] is the value of [random.uniform(0, 0.2)]. *)
Definition detect_anomaly (log_entry : LogEntry) (noise : float) : float :=
  let score := 0.1%float in
  let message_lower := Py.lower (le_message log_entry) in
  let score := foldl (scan message_lower) score risk_patterns in
  let score := (score + Py.get level_scores (le_level log_entry) 0.1)%float in
  let score := (score + noise)%float in
  Py.min score 1.0.

(** [classify_threat]; [pick] is the draw behind [random.choice]. *)
Definition classify_threat (score : float) (source : string) (pick : nat)
  : Classification :=
  if (0.9 <? score)%float then
    {| c_severity := critical;
       c_category := Py.choice ["APT"; "Zero-day"; "Data Breach"] pick;
       c_risk_level := 5;
       c_immediate_action := true |}
  else if (0.7 <? score)%float then
    {| c_severity := high;
       c_category := Py.choice ["DDoS"; "Malware"; "Brute Force"] pick;
       c_risk_level := 4;
       c_immediate_action := true |}
  else if (0.5 <? score)%float then
    {| c_severity := medium;
       c_category := Py.choice ["Phishing"; "Policy Violation"] pick;
       c_risk_level := 3;
       c_immediate_action := false |}
  else
    {| c_severity := low;
       c_category := "Informational";
       c_risk_level := 1;
       c_immediate_action := false |}.

End AnomalyDetector.

(** ** The in-memory store *)

Inductive Status := active | responding | mitigating | resolved.

#[global] Instance Status_eq_dec : EqDecision Status.
Proof. solve_decision. Defined.

(** A threat dict.  The first ten keys are set when the dict is built in
    [analyze_log]; the others are assigned by [respond_to_threat] and by the
    background coroutines. *)
Record Threat := {
  t_id : Z;
  t_log_id : Z;
  t_timestamp : string;
  t_source : string;
  t_severity : Severity;
  t_category : string;
  t_confidence : float;
  t_status : Status;
  t_risk_level : Z;
  t_description : string;
  t_response_initiated : option string;
  t_response_type : option string;
  t_response_actions : option (list string);
  t_playbook_executed : option string;
  t_auto_response_started : option string;
  t_resolved_timestamp : option string;
  t_resolution_timestamp : option string;
  t_resolution_summary : option string
}.

(** An alert dict; [read_timestamp] is assigned by [mark_alert_read]. *)
Record Alert := {
  a_id : Z;
  a_threat_id : Z;
  a_severity : Severity;
  a_message : string;
  a_timestamp : string;
  a_read : bool;
  a_actions_required : bool;
  a_read_timestamp : option string
}.

(** A reference to a threat dict: its index in [heap]. *)
Abbreviation ref := nat (only parsing).

Record Store := {
  heap : list Threat;
  active_threats : list ref;
  threat_history : list ref;
  system_alerts : list Alert
}.

Definition empty_store : Store :=
  {| heap := []; active_threats := []; threat_history := []; system_alerts := [] |}.

(** Assignments to keys of a threat dict: [threat[key] = v]. *)
Module Threat_.

Definition set_status (v : Status) (t : Threat) : Threat :=
  {| t_id := t_id t; t_log_id := t_log_id t; t_timestamp := t_timestamp t;
     t_source := t_source t; t_severity := t_severity t;
     t_category := t_category t; t_confidence := t_confidence t;
     t_status := v;
     t_risk_level := t_risk_level t; t_description := t_description t;
     t_response_initiated := t_response_initiated t;
     t_response_type := t_response_type t;
     t_response_actions := t_response_actions t;
     t_playbook_executed := t_playbook_executed t;
     t_auto_response_started := t_auto_response_started t;
     t_resolved_timestamp := t_resolved_timestamp t;
     t_resolution_timestamp := t_resolution_timestamp t;
     t_resolution_summary := t_resolution_summary t |}.

(** The keys that appear after creation, assigned together: each argument
    is applied to the current value of its key. *)
Definition set_late
    (f_initiated f_type : option string -> option string)
    (f_actions : option (list string) -> option (list string))
    (f_playbook f_auto f_resolved f_resolution f_summary
       : option string -> option string)
    (t : Threat) : Threat :=
  {| t_id := t_id t; t_log_id := t_log_id t; t_timestamp := t_timestamp t;
     t_source := t_source t; t_severity := t_severity t;
     t_category := t_category t; t_confidence := t_confidence t;
     t_status := t_status t;
     t_risk_level := t_risk_level t; t_description := t_description t;
     t_response_initiated := f_initiated (t_response_initiated t);
     t_response_type := f_type (t_response_type t);
     t_response_actions := f_actions (t_response_actions t);
     t_playbook_executed := f_playbook (t_playbook_executed t);
     t_auto_response_started := f_auto (t_auto_response_started t);
     t_resolved_timestamp := f_resolved (t_resolved_timestamp t);
     t_resolution_timestamp := f_resolution (t_resolution_timestamp t);
     t_resolution_summary := f_summary (t_resolution_summary t) |}.

Definition keep {A} (x : A) : A := x.
Definition put {A} (v : A) (_ : option A) : option A := Some v.

Definition set_response_initiated v :=
  set_late (put v) keep keep keep keep keep keep keep.
Definition set_response_type v :=
  set_late keep (put v) keep keep keep keep keep keep.
Definition set_response_actions v :=
  set_late keep keep (put v) keep keep keep keep keep.
Definition set_playbook_executed v :=
  set_late keep keep keep (put v) keep keep keep keep.
Definition set_auto_response_started v :=
  set_late keep keep keep keep (put v) keep keep keep.
Definition set_resolved_timestamp v :=
  set_late keep keep keep keep keep (put v) keep keep.
Definition set_resolution_timestamp v :=
  set_late keep keep keep keep keep keep (put v) keep.
Definition set_resolution_summary v :=
  set_late keep keep keep keep keep keep keep (put v).

(** [threat.setdefault('response_actions', []).append(action)]. *)
Definition append_response_action (action : string) :=
  set_late keep keep (fun old => Some (default [] old ++ [action]))
           keep keep keep keep keep.

End Threat_.

(** Assignments to keys of an alert dict. *)
Module Alert_.

Definition set_read (v : bool) (a : Alert) : Alert :=
  {| a_id := a_id a; a_threat_id := a_threat_id a;
     a_severity := a_severity a; a_message := a_message a;
     a_timestamp := a_timestamp a;
     a_read := v;
     a_actions_required := a_actions_required a;
     a_read_timestamp := a_read_timestamp a |}.

Definition set_read_timestamp (v : string) (a : Alert) : Alert :=
  {| a_id := a_id a; a_threat_id := a_threat_id a;
     a_severity := a_severity a; a_message := a_message a;
     a_timestamp := a_timestamp a;
     a_read := a_read a;
     a_actions_required := a_actions_required a;
     a_read_timestamp := Some v |}.

End Alert_.

Module Store_.

Definition set_heap (h : list Threat) (s : Store) : Store :=
  {| heap := h; active_threats := active_threats s;
     threat_history := threat_history s; system_alerts := system_alerts s |}.

Definition set_system_alerts (al : list Alert) (s : Store) : Store :=
  {| heap := heap s; active_threats := active_threats s;
     threat_history := threat_history s; system_alerts := al |}.

(** Mutation of the dict behind a reference; every list that holds the
    reference sees it. *)
Definition update (r : ref) (f : Threat -> Threat) (s : Store) : Store :=
  set_heap (alter f r (heap s)) s.

(** Mutation of the alert dict found at position [i] of [system_alerts]. *)
Definition update_alert (i : nat) (f : Alert -> Alert) (s : Store) : Store :=
  set_system_alerts (alter f i (system_alerts s)) s.

(** The dicts a list of references points at, in the order of the list. *)
Definition deref (s : Store) (rs : list ref) : list Threat :=
  omap (fun r => heap s !! r) rs.

(** [next((t for t in active_threats if t['id'] == threat_id), None)]. *)
Definition find_threat (s : Store) (threat_id : Z) : option ref :=
  snd <$> list_find (fun r => t_id <$> heap s !! r = Some threat_id)
                    (active_threats s).

(** [next((a for a in system_alerts if a['id'] == alert_id), None)], with
    the position of the alert found. *)
Definition find_alert (s : Store) (alert_id : Z) : option (nat * Alert) :=
  list_find (fun a => a_id a = alert_id) (system_alerts s).

(** [seq[start:]]. *)
Definition slice_from {A} (start : Z) (seq : list A) : list A :=
  let n := Z.of_nat (length seq) in
  let start := if (start <? 0)%Z then Z.max (start + n) 0 else Z.min start n in
  drop (Z.to_nat start) seq.

End Store_.

(** ** Background coroutines

    A coroutine the event loop holds: one that [background_tasks] has not
    started yet, or one suspended in an [asyncio.sleep], named after the
    function and the sleep it waits in, with the loop time, in
    milliseconds, at which the sleep ends.  A coroutine that has looked its
    threat up holds the dict itself, a reference. *)
Inductive Coroutine :=
| initiate_automated_response_start (threat_id : Z)
| initiate_automated_response_sleep1 (threat_id : Z) (wake : Z)
| block_ip_address_sleep (threat : ref) (wake : Z)
| isolate_system_sleep (threat : ref) (wake : Z)
| quarantine_email_sleep (threat : ref) (wake : Z)
| initiate_automated_response_sleep2 (threat : ref) (wake : Z)
| execute_response_playbook_start (threat_id : Z) (action_type : string)
| execute_response_playbook_sleep3 (threat : ref) (action_type : string) (wake : Z).

(** ** HTTP handlers *)

(** The values [random] and [datetime.now] return during one call of
    [analyze_log]. *)
Record Oracle := {
  noise : float;
  pick : nat;
  now_log : string;
  now_threat : string;
  now_alert : string
}.

Record LogRecord := {
  lr_id : Z;
  lr_timestamp : string;
  lr_source : string;
  lr_level : string;
  lr_message : string;
  lr_anomaly_score : float;
  lr_metadata : list (string * string)
}.

(** [response_data] of [analyze_log]; the last three keys are present only
    after [response_data.update]. *)
Record AnalyzeResponse := {
  r_log_id : Z;
  r_anomaly_score : float;
  r_status : string;
  r_threat_detected : option bool;
  r_threat : option Threat;
  r_alert : option Alert
}.

Record HistoryResponse := {
  r_threats : list Threat;
  r_total : Z
}.

Record RespondResponse := {
  rr_status : string;
  rr_message : string;
  rr_response_type : string
}.

Record ReadResponse := {
  rd_status : string;
  rd_message : string
}.

Import AnomalyDetector.

(** [POST /analyze].  Returns the response, the store after the call and
    the tasks added to [background_tasks]. *)
Definition analyze_log (log_entry : LogEntry) (o : Oracle) (s : Store)
  : AnalyzeResponse * Store * list Coroutine :=
  let anomaly_score := detect_anomaly log_entry (noise o) in
  let log_record :=
    {| lr_id := Z.of_nat (length (threat_history s)) + 1;
       lr_timestamp := now_log o;
       lr_source := le_source log_entry;
       lr_level := le_level log_entry;
       lr_message := le_message log_entry;
       lr_anomaly_score := anomaly_score;
       lr_metadata := le_metadata log_entry |} in
  let response_data :=
    {| r_log_id := lr_id log_record;
       r_anomaly_score := anomaly_score;
       r_status := "processed";
       r_threat_detected := None; r_threat := None; r_alert := None |} in
  if (0.6 <? anomaly_score)%float then
    let threat_classification :=
      classify_threat anomaly_score (le_source log_entry) (pick o) in
    let threat :=
      {| t_id := Z.of_nat (length (active_threats s)) + 1;
         t_log_id := lr_id log_record;
         t_timestamp := now_threat o;
         t_source := le_source log_entry;
         t_severity := c_severity threat_classification;
         t_category := c_category threat_classification;
         t_confidence := Py.round2 (anomaly_score * 100)%float;
         t_status := active;
         t_risk_level := c_risk_level threat_classification;
         t_description :=
           c_category threat_classification +:+ " detected from "
             +:+ le_source log_entry;
         t_response_initiated := None; t_response_type := None;
         t_response_actions := None; t_playbook_executed := None;
         t_auto_response_started := None; t_resolved_timestamp := None;
         t_resolution_timestamp := None; t_resolution_summary := None |} in
    let r : ref := length (heap s) in
    let s :=
      {| heap := heap s ++ [threat];
         active_threats := active_threats s ++ [r];
         threat_history := threat_history s ++ [r];
         system_alerts := system_alerts s |} in
    let alert :=
      {| a_id := Z.of_nat (length (system_alerts s)) + 1;
         a_threat_id := t_id threat;
         a_severity := t_severity threat;
         a_message :=
           "🚨 " +:+ t_category threat +:+ " detected from " +:+ t_source threat;
         a_timestamp := now_alert o;
         a_read := false;
         a_actions_required := c_immediate_action threat_classification;
         a_read_timestamp := None |} in
    let s := Store_.set_system_alerts (system_alerts s ++ [alert]) s in
    let response_data :=
      {| r_log_id := r_log_id response_data;
         r_anomaly_score := r_anomaly_score response_data;
         r_status := r_status response_data;
         r_threat_detected := Some true;
         r_threat := Some threat;
         r_alert := Some alert |} in
    let background_tasks :=
      if c_immediate_action threat_classification
      then [initiate_automated_response_start (t_id threat)]
      else [] in
    (response_data, s, background_tasks)
  else
    (response_data, s, []).

(** [GET /threats/history?limit=N]: [threat_history[-limit:]], serialised. *)
Definition get_threat_history (limit : Z) (s : Store) : HistoryResponse :=
  {| r_threats := Store_.deref s (Store_.slice_from (- limit) (threat_history s));
     r_total := Z.of_nat (length (threat_history s)) |}.

(** The value of [limit] when the query string gives none. *)
Definition default_limit : Z := 100.

(** [POST /threats/{threat_id}/respond]. *)
Definition respond_to_threat
    (threat_id : Z) (response : ThreatResponse) (now : string) (s : Store)
  : Py.result RespondResponse * Store * list Coroutine :=
  match Store_.find_threat s threat_id with
  | None => (Py.HTTPException 404 "Threat not found", s, [])
  | Some threat =>
      if bool_decide (t_status <$> heap s !! threat ≠ Some active) then
        (Py.HTTPException 400 "Threat is not active", s, [])
      else
        let s := Store_.update threat (Threat_.set_status responding) s in
        let s := Store_.update threat (Threat_.set_response_initiated now) s in
        let s := Store_.update threat
                   (Threat_.set_response_type (tr_action response)) s in
        (Py.Return
           {| rr_status := "success";
              rr_message :=
                "Automated response initiated for threat " +:+ pretty threat_id;
              rr_response_type := tr_action response |},
         s,
         [execute_response_playbook_start threat_id (tr_action response)])
  end.

(** [PUT /alerts/{alert_id}/read]. *)
Definition mark_alert_read (alert_id : Z) (now : string) (s : Store)
  : Py.result ReadResponse * Store :=
  match Store_.find_alert s alert_id with
  | None => (Py.HTTPException 404 "Alert not found", s)
  | Some (i, _) =>
      let s := Store_.update_alert i (Alert_.set_read true) s in
      let s := Store_.update_alert i (Alert_.set_read_timestamp now) s in
      (Py.Return {| rd_status := "success";
                    rd_message := "Alert marked as read" |}, s)
  end.

(** ** The segments of the background coroutines *)

Definition playbook_actions : gmap string (list string) :=
  list_to_map
    [("auto_mitigate",
      ["Block suspicious IP"; "Isolate affected system"; "Notify security team"]);
     ("investigate",
      ["Collect forensic data"; "Analyze threat vectors"; "Generate report"]);
     ("contain",
      ["Network segmentation"; "Access restrictions"; "Monitor communications"])].

(** The loop time at which a coroutine may go on: at once when it has not
    started, at the end of its sleep otherwise. *)
Definition wake_time (c : Coroutine) : option Z :=
  match c with
  | initiate_automated_response_start _
  | execute_response_playbook_start _ _ => None
  | initiate_automated_response_sleep1 _ wake
  | block_ip_address_sleep _ wake
  | isolate_system_sleep _ wake
  | quarantine_email_sleep _ wake
  | initiate_automated_response_sleep2 _ wake
  | execute_response_playbook_sleep3 _ _ wake => Some wake
  end.

Definition due (c : Coroutine) (time : Z) : bool :=
  match wake_time c with
  | None => true
  | Some wake => (wake <=? time)%Z
  end.

(** [asyncio.sleep(seconds)] entered at loop time [time]: the time at
    which it ends, in milliseconds. *)
Definition sleep_until (time ms : Z) : Z := (time + ms)%Z.

(** [resume c time now s] runs the coroutine [c], at loop time [time],
    from where it waits up to its next [await] or its end: the store after
    the segment, and the suspended coroutine that remains, if any.  [now]
    is what [datetime.now().isoformat()] returns during the segment. *)
Definition resume (c : Coroutine) (time : Z) (now : string) (s : Store)
  : Store * option Coroutine :=
  match c with
  | initiate_automated_response_start threat_id =>
      (s, Some (initiate_automated_response_sleep1 threat_id
                  (sleep_until time 1000)))
  | initiate_automated_response_sleep1 threat_id _ =>
      match Store_.find_threat s threat_id with
      | None => (s, None)
      | Some threat =>
          let s := Store_.update threat (Threat_.set_status mitigating) s in
          let s := Store_.update threat (Threat_.set_auto_response_started now) s in
          let category := default "" (t_category <$> heap s !! threat) in
          if Py.in_list category ["DDoS"; "Brute Force"] then
            (s, Some (block_ip_address_sleep threat (sleep_until time 500)))
          else if Py.in_list category ["Malware"; "APT"] then
            (s, Some (isolate_system_sleep threat (sleep_until time 500)))
          else if bool_decide (category = "Phishing") then
            (s, Some (quarantine_email_sleep threat (sleep_until time 500)))
          else
            (s, Some (initiate_automated_response_sleep2 threat
                        (sleep_until time 2000)))
      end
  | block_ip_address_sleep threat _ =>
      (Store_.update threat
         (Threat_.append_response_action "IP address blocked at firewall") s,
       Some (initiate_automated_response_sleep2 threat (sleep_until time 2000)))
  | isolate_system_sleep threat _ =>
      (Store_.update threat
         (Threat_.append_response_action "System isolated from network") s,
       Some (initiate_automated_response_sleep2 threat (sleep_until time 2000)))
  | quarantine_email_sleep threat _ =>
      (Store_.update threat
         (Threat_.append_response_action "Malicious email quarantined") s,
       Some (initiate_automated_response_sleep2 threat (sleep_until time 2000)))
  | initiate_automated_response_sleep2 threat _ =>
      let s := Store_.update threat (Threat_.set_status resolved) s in
      let s := Store_.update threat (Threat_.set_resolved_timestamp now) s in
      (s, None)
  | execute_response_playbook_start threat_id action_type =>
      match Store_.find_threat s threat_id with
      | None => (s, None)
      | Some threat =>
          let actions := Py.get playbook_actions action_type ["Default response"] in
          let s := Store_.update threat (Threat_.set_response_actions actions) s in
          let s := Store_.update threat (Threat_.set_playbook_executed action_type) s in
          (s, Some (execute_response_playbook_sleep3 threat action_type
                      (sleep_until time 3000)))
      end
  | execute_response_playbook_sleep3 threat action_type _ =>
      let s := Store_.update threat (Threat_.set_status resolved) s in
      let s := Store_.update threat (Threat_.set_resolution_timestamp now) s in
      let s := Store_.update threat
                 (Threat_.set_resolution_summary
                    ("Threat resolved using " +:+ action_type +:+ " playbook")) s in
      (s, None)
  end.

(** ** The running application

    The state of the process: the module-level lists, the coroutines the
    event loop holds and the time of the loop, in milliseconds.  An event
    is a request served by a handler, the passing of time, or the event
    loop running the [k]-th coroutine it holds, which it does only when
    the sleep of that coroutine has ended; nothing bounds how late a
    coroutine is run after that, nor how long after the response a
    background task is started.  A list of events is one interleaving of
    requests and background work. *)
Record System := {
  store : Store;
  pending : list Coroutine;
  loop_time : Z
}.

Definition boot : System :=
  {| store := empty_store; pending := []; loop_time := 0 |}.

Inductive Event :=
| POST_analyze (log_entry : LogEntry) (o : Oracle)
| GET_threats_history (limit : Z)
| POST_threats_respond (threat_id : Z) (response : ThreatResponse) (now : string)
| PUT_alerts_read (alert_id : Z) (now : string)
| Elapse (ms : N)
| Resume (k : nat) (now : string).

Inductive Output :=
| analyzed (r : AnalyzeResponse)
| history (r : HistoryResponse)
| responded (r : Py.result RespondResponse)
| marked (r : Py.result ReadResponse)
| resumed (c : Coroutine)
| idle.

Definition step (e : Event) (sys : System) : Output * System :=
  match e with
  | POST_analyze log_entry o =>
      let '(r, s, background_tasks) := analyze_log log_entry o (store sys) in
      (analyzed r,
       {| store := s; pending := pending sys ++ background_tasks;
          loop_time := loop_time sys |})
  | GET_threats_history limit =>
      (history (get_threat_history limit (store sys)), sys)
  | POST_threats_respond threat_id response now =>
      let '(r, s, background_tasks) :=
        respond_to_threat threat_id response now (store sys) in
      (responded r,
       {| store := s; pending := pending sys ++ background_tasks;
          loop_time := loop_time sys |})
  | PUT_alerts_read alert_id now =>
      let '(r, s) := mark_alert_read alert_id now (store sys) in
      (marked r,
       {| store := s; pending := pending sys; loop_time := loop_time sys |})
  | Elapse ms =>
      (idle,
       {| store := store sys; pending := pending sys;
          loop_time := loop_time sys + Z.of_N ms |})
  | Resume k now =>
      match pending sys !! k with
      | None => (idle, sys)
      | Some c =>
          if due c (loop_time sys) then
            let '(s, rest) := resume c (loop_time sys) now (store sys) in
            (resumed c,
             {| store := s;
                pending := take k (pending sys) ++ option_list rest
                             ++ drop (S k) (pending sys);
                loop_time := loop_time sys |})
          else (idle, sys)
      end
  end.

(** The outputs of an interleaving, oldest first, and the state it ends in. *)
Fixpoint run (es : list Event) (sys : System) : list Output * System :=
  match es with
  | [] => ([], sys)
  | e :: es =>
      let '(o, sys) := step e sys in
      let '(os, sys) := run es sys in
      (o :: os, sys)
  end.

Definition exec (es : list Event) (sys : System) : System := (run es sys).2.

(** The states the application can be in. *)
Definition reachable (sys : System) : Prop := ∃ es, sys = exec es boot.

(** The status of the threat with identifier [threat_id], when there is one. *)
Definition status_of (threat_id : Z) (sys : System) : option Status :=
  r ← Store_.find_threat (store sys) threat_id;
  t_status <$> heap (store sys) !! r.

(** The status of a threat after each event of an interleaving. *)
Fixpoint status_trace (threat_id : Z) (es : list Event) (sys : System)
  : list (option Status) :=
  match es with
  | [] => []
  | e :: es =>
      let sys := (step e sys).2 in
      status_of threat_id sys :: status_trace threat_id es sys
  end.

(** The position of a status along active, responding, mitigating, resolved. *)
Definition rank (st : Status) : nat :=
  match st with
  | active => 0
  | responding => 1
  | mitigating => 2
  | resolved => 3
  end.

(** ** Vocabulary of the specification *)

(** The risk keywords that occur in the lower-cased message, each keyword
    of the vocabulary being looked for once, and their number. *)
Definition matched_keywords (message : string) : list string :=
  List.filter (fun p => Py.contains p (Py.lower message)) risk_patterns.

Definition keyword_hits (message : string) : nat :=
  length (matched_keywords message).

(** The increment of a level: CRITICAL 0.4, ERROR 0.3, WARN 0.2, any
    other level 0.1. *)
Definition level_increment (level : string) : float :=
  if decide (level = "CRITICAL") then 0.4%float
  else if decide (level = "ERROR") then 0.3%float
  else if decide (level = "WARN") then 0.2%float
  else 0.1%float.

(** [w] occurs in [s], up to the case of ASCII letters, as the word [p]. *)
Definition occurs_ignoring_case (p s : string) : Prop :=
  ∃ a w b, s = a +:+ w +:+ b ∧ Py.lower w = p.

(** Zero, a positive number or plus infinity, in the IEEE reading of a
    float. *)
Definition sf_nonneg (x : spec_float) : Prop :=
  match x with
  | S754_zero _ => True
  | S754_infinity s | S754_finite s _ _ => s = false
  | S754_nan => False
  end.

(** The identifiers 1, 2, ..., n, in this order. *)
Definition ids_upto (n : nat) : list Z := (fun i => Z.of_nat i + 1)%Z <$> seq 0 n.

(** The shape every store of a run has: both lists of threats hold every
    reference once, in the order of allocation, and the identifier of the
    i-th threat, and of the i-th alert, counted from 0, is i + 1. *)
Definition store_wf (s : Store) : Prop :=
  active_threats s = seq 0 (length (heap s))
  ∧ threat_history s = seq 0 (length (heap s))
  ∧ (∀ i t, heap s !! i = Some t -> t_id t = (Z.of_nat i + 1)%Z)
  ∧ (∀ i a, system_alerts s !! i = Some a -> a_id a = (Z.of_nat i + 1)%Z).

(** The identifiers of the threats, and of the alerts, in the order of
    their creation. *)
Definition threat_ids (sys : System) : list Z :=
  t_id <$> Store_.deref (store sys) (active_threats (store sys)).

Definition alert_ids (sys : System) : list Z :=
  a_id <$> system_alerts (store sys).

(** An assignment to a threat dict that leaves the keys set at creation
    other than [status] alone. *)
Definition keeps_identity (f : Threat -> Threat) : Prop :=
  ∀ t, t_id (f t) = t_id t ∧ t_category (f t) = t_category t.

(** [s'] holds every threat dict of [s], with the same identifier and
    category. *)
Definition extends (s s' : Store) : Prop :=
  ∀ r t, heap s !! r = Some t ->
    ∃ t', heap s' !! r = Some t' ∧ t_id t' = t_id t
          ∧ t_category t' = t_category t.

(** The categories of the two severities that ask for immediate action. *)
Definition auto_categories : list string :=
  ["APT"; "Zero-day"; "Data Breach"; "DDoS"; "Malware"; "Brute Force"].

(** What holds of a suspended coroutine in a run: the automated response
    waits for a threat of an immediate-action category, and nothing is
    suspended in [quarantine_email]. *)
Definition coroutine_ok (s : Store) (c : Coroutine) : Prop :=
  match c with
  | initiate_automated_response_start threat_id
  | initiate_automated_response_sleep1 threat_id _ =>
      ∃ r t, heap s !! r = Some t ∧ t_id t = threat_id
             ∧ t_category t ∈ auto_categories
  | quarantine_email_sleep _ _ => False
  | _ => True
  end.

Definition sys_wf (sys : System) : Prop :=
  store_wf (store sys) ∧ Forall (coroutine_ok (store sys)) (pending sys).

(** The lists only grow: a later store has at least the threats and the
    alerts of an earlier one. *)
Definition grows (s s' : Store) : Prop :=
  length (heap s) ≤ length (heap s')
  ∧ length (system_alerts s) ≤ length (system_alerts s').

(** The outputs of an interleaving that report a new threat, and their
    number. *)
Definition creates_threat (o : Output) : bool :=
  match o with
  | analyzed r => match r_threat r with Some _ => true | None => false end
  | _ => false
  end.

Definition threats_created (os : list Output) : nat :=
  length (List.filter creates_threat os).

(** ** The read-only handlers of [threat_detect.py] *)

#[global] Instance Severity_eq_dec : EqDecision Severity.
Proof. solve_decision. Defined.

Record ActiveResponse := {
  ra_threats : list Threat;
  ra_count : Z
}.

(** [GET /threats/active]: the comprehension
    [[t for t in active_threats if t['status'] == 'active']], twice. *)
Definition get_active_threats (s : Store) : ActiveResponse :=
  let is_active t := bool_decide (t_status t = active) in
  {| ra_threats := List.filter is_active (Store_.deref s (active_threats s));
     ra_count :=
       Z.of_nat (length (List.filter is_active
                           (Store_.deref s (active_threats s)))) |}.

Record AlertsResponse := {
  al_alerts : list Alert;
  al_unread_count : Z
}.

(** [GET /alerts?unread_only=...]. *)
Definition get_alerts (unread_only : bool) (s : Store) : AlertsResponse :=
  let alerts :=
    if unread_only
    then List.filter (fun a => negb (a_read a)) (system_alerts s)
    else system_alerts s in
  {| al_alerts := alerts;
     al_unread_count :=
       Z.of_nat (length (List.filter (fun a => negb (a_read a))
                           (system_alerts s))) |}.

Record ThreatLevels := {
  tl_critical : Z;
  tl_high : Z;
  tl_medium : Z;
  tl_low : Z
}.

Record DashboardMetrics := {
  dm_active_threats : Z;
  dm_total_threats_today : Z;
  dm_unread_alerts : Z;
  dm_threat_levels : ThreatLevels;
  dm_system_status : string;
  dm_last_updated : string
}.

(** [len([t for t in seq if p(t)])]. *)
Definition count_if {A} (p : A -> bool) (seq : list A) : Z :=
  Z.of_nat (length (List.filter p seq)).

(** [GET /dashboard/metrics].  [today i] is what
    [datetime.now().date().isoformat()] returns when the comprehension
    reaches the [i]-th threat of the history, [now] the final reading of
    [datetime.now().isoformat()]. *)
Definition get_dashboard_metrics (today : nat -> string) (now : string) (s : Store)
  : DashboardMetrics :=
  let threats := Store_.deref s (active_threats s) in
  let is_active t := bool_decide (t_status t = active) in
  let level sev t := bool_decide (t_severity t = sev) && is_active t in
  {| dm_active_threats := count_if is_active threats;
     dm_total_threats_today :=
       count_if (fun it => bool_decide
                   (String.substring 0 10 (t_timestamp it.2) = today it.1))
                (imap pair (Store_.deref s (threat_history s)));
     dm_unread_alerts := count_if (fun a => negb (a_read a)) (system_alerts s);
     dm_threat_levels :=
       {| tl_critical := count_if (level critical) threats;
          tl_high := count_if (level high) threats;
          tl_medium := count_if (level medium) threats;
          tl_low := count_if (level low) threats |};
     dm_system_status := "operational";
     dm_last_updated := now |}.

(** A background coroutine run from [c] to its end with nothing in
    between: each segment starts when the sleep before it ends, or at
    [time] if that is later, and [clock] gives what
    [datetime.now().isoformat()] returns at a loop time.  [fuel] bounds
    the number of segments; [None] when it does not suffice. *)
Fixpoint run_to_end (fuel : nat) (c : Coroutine) (time : Z)
    (clock : Z -> string) (s : Store) : option Store :=
  match fuel with
  | 0 => None
  | S fuel =>
      let time := match wake_time c with
                  | Some wake => Z.max time wake
                  | None => time
                  end in
      match resume c time (clock time) s with
      | (s, Some c) => run_to_end fuel c time clock s
      | (s, None) => Some s
      end
  end.

(** ** The file-scan endpoint of [main.py] *)

Module Py2.

(** [s.endswith(suffix)]. *)
Fixpoint endswith (s suffix : string) : bool :=
  if String.eqb s suffix then true
  else match s with
       | EmptyString => false
       | String _ s' => endswith s' suffix
       end.

(** [x or dflt] for an optional string: [None] and the empty string are
    falsy. *)
Definition or_else (x : option string) (dflt : string) : string :=
  match x with
  | Some (String c s) => String c s
  | _ => dflt
  end.

End Py2.

(** The upload as the handler sees it: [filename] and [content_type] may
    be [None]; [content] is what [await file.read()] returns. *)
Record UploadFile := {
  uf_filename : option string;
  uf_content_type : option string;
  uf_content : list Byte.byte
}.

Record AnalysisSummary := {
  as_signatures_matched : list string;
  as_suspicious_patterns : list string;
  as_file_type : string;
  as_entropy : float;
  as_api_calls : list string;
  as_network_connections : list string
}.

Record ScanResult := {
  sr_file_name : string;
  sr_file_hash : string;
  sr_file_size : Z;
  sr_scan_status : string;
  sr_threat_level : string;
  sr_malware_detected : bool;
  sr_analysis_summary : AnalysisSummary
}.

Section ScanFile.

(** [hashlib.sha256(data).hexdigest()], and [str(e)] of an
    [HTTPException] with the given status code and detail: library code,
    taken as it is. *)
Variable sha256_hexdigest : list Byte.byte -> string.
Variable str_HTTPException : Z -> string -> string.

(** The body of the [try] block of [scan_file]. *)
Definition scan_file_try (file : UploadFile) : Py.result ScanResult :=
  let file_content := uf_content file in
  let file_hash := sha256_hexdigest file_content in
  if bool_decide (length file_content = 0) then
    Py.HTTPException 400 "Empty file uploaded"
  else
    let analysis_summary :=
      {| as_signatures_matched := [];
         as_suspicious_patterns := [];
         as_file_type := Py2.or_else (uf_content_type file) "unknown";
         as_entropy := 7.2%float;
         as_api_calls := [];
         as_network_connections := [] |} in
    let threat_level := "low" in
    let malware_detected := false in
    let is_exe :=
      match uf_filename file with
      | Some (String c n) => Py2.endswith (Py.lower (String c n)) ".exe"
      | _ => false
      end in
    let threat_level := if is_exe then "medium" else threat_level in
    let analysis_summary :=
      if is_exe then
        {| as_signatures_matched := as_signatures_matched analysis_summary;
           as_suspicious_patterns := ["Executable file"];
           as_file_type := as_file_type analysis_summary;
           as_entropy := as_entropy analysis_summary;
           as_api_calls := as_api_calls analysis_summary;
           as_network_connections := as_network_connections analysis_summary |}
      else analysis_summary in
    Py.Return
      {| sr_file_name := Py2.or_else (uf_filename file) "unknown";
         sr_file_hash := file_hash;
         sr_file_size := Z.of_nat (length file_content);
         sr_scan_status := "completed";
         sr_threat_level := threat_level;
         sr_malware_detected := malware_detected;
         sr_analysis_summary := analysis_summary |}.

(** [POST /api/scan]: the [try] block under [except Exception as e], which
    also catches the [HTTPException] raised inside the block. *)
Definition scan_file (file : UploadFile) : Py.result ScanResult :=
  match scan_file_try file with
  | Py.Return r => Py.Return r
  | Py.HTTPException status_code detail =>
      Py.HTTPException 500
        ("Scan failed: " +:+ str_HTTPException status_code detail)
  end.

End ScanFile.

(** ** Vocabulary of the further properties *)

(** Two versions of one threat dict: every key set at creation holds the
    same value, [status] apart. *)
Definition same_creation (t t' : Threat) : Prop :=
  t_id t' = t_id t ∧ t_log_id t' = t_log_id t
  ∧ t_timestamp t' = t_timestamp t ∧ t_source t' = t_source t
  ∧ t_severity t' = t_severity t ∧ t_category t' = t_category t
  ∧ t_confidence t' = t_confidence t ∧ t_risk_level t' = t_risk_level t
  ∧ t_description t' = t_description t.

(** Two versions of one alert dict: every key set at creation holds the
    same value, [read] apart, and a read alert is still read. *)
Definition alert_evolves (a a' : Alert) : Prop :=
  a_id a' = a_id a ∧ a_threat_id a' = a_threat_id a
  ∧ a_severity a' = a_severity a ∧ a_message a' = a_message a
  ∧ a_timestamp a' = a_timestamp a
  ∧ a_actions_required a' = a_actions_required a
  ∧ (a_read a = true -> a_read a' = true).

(** [s'] is a later store than [s]: it holds the threats and the alerts of
    [s], in their places and with their creation keys, followed by the
    threats and the alerts created since. *)
Definition progress (s s' : Store) : Prop :=
  ∃ h ts al als,
    heap s' = h ++ ts ∧ Forall2 same_creation (heap s) h
    ∧ system_alerts s' = al ++ als
    ∧ Forall2 alert_evolves (system_alerts s) al.

(** What a classification of a severity looks like. *)
Definition vocabulary (sev : Severity) : list string :=
  match sev with
  | critical => ["APT"; "Zero-day"; "Data Breach"]
  | high => ["DDoS"; "Malware"; "Brute Force"]
  | medium => ["Phishing"; "Policy Violation"]
  | low => ["Informational"]
  end.

Definition risk_of (sev : Severity) : Z :=
  match sev with critical => 5 | high => 4 | medium => 3 | low => 1 end.

Definition immediate_of (sev : Severity) : bool :=
  match sev with critical | high => true | medium | low => false end.

(** The keys of a stored threat agree with each other. *)
Definition threat_consistent (t : Threat) : Prop :=
  t_log_id t = t_id t
  ∧ t_severity t ≠ low
  ∧ t_risk_level t = risk_of (t_severity t)
  ∧ t_category t ∈ vocabulary (t_severity t)
  ∧ t_description t = t_category t +:+ " detected from " +:+ t_source t.

(** The alert raised for a threat. *)
Definition alert_matches (t : Threat) (a : Alert) : Prop :=
  a_id a = t_id t
  ∧ a_threat_id a = t_id t
  ∧ a_severity a = t_severity t
  ∧ a_actions_required a = immediate_of (t_severity t)
  ∧ a_message a = "🚨 " +:+ t_category t +:+ " detected from " +:+ t_source t.

Definition store_consistent (s : Store) : Prop :=
  Forall threat_consistent (heap s)
  ∧ Forall2 alert_matches (heap s) (system_alerts s).

(** The threat a coroutine works on is in the store. *)
Definition coroutine_live (s : Store) (c : Coroutine) : Prop :=
  match c with
  | initiate_automated_response_start threat_id
  | initiate_automated_response_sleep1 threat_id _
  | execute_response_playbook_start threat_id _ =>
      ∃ r t, heap s !! r = Some t ∧ t_id t = threat_id
  | block_ip_address_sleep r _
  | isolate_system_sleep r _
  | quarantine_email_sleep r _
  | initiate_automated_response_sleep2 r _
  | execute_response_playbook_sleep3 r _ _ => is_Some (heap s !! r)
  end.

(** The identifier a coroutine will look up, if it still has to. *)
Definition lookup_of (c : Coroutine) : option Z :=
  match c with
  | initiate_automated_response_start threat_id
  | initiate_automated_response_sleep1 threat_id _
  | execute_response_playbook_start threat_id _ => Some threat_id
  | _ => None
  end.

(** The lookup a coroutine still has to do finds a threat. *)
Definition finds_its_threat (s : Store) (c : Coroutine) : Prop :=
  match lookup_of c with
  | Some threat_id => is_Some (Store_.find_threat s threat_id)
  | None => True
  end.

(** The string a remediation step of the automated response records for a
    category, if it records one. *)
Definition remediation_of (category : string) : option string :=
  if Py.in_list category ["DDoS"; "Brute Force"]
  then Some "IP address blocked at firewall"
  else if Py.in_list category ["Malware"; "APT"]
  then Some "System isolated from network"
  else if bool_decide (category = "Phishing")
  then Some "Malicious email quarantined"
  else None.

(** The actions of a playbook. *)
Definition playbook_of (action_type : string) : list string :=
  if decide (action_type = "auto_mitigate") then
    ["Block suspicious IP"; "Isolate affected system"; "Notify security team"]
  else if decide (action_type = "investigate") then
    ["Collect forensic data"; "Analyze threat vectors"; "Generate report"]
  else if decide (action_type = "contain") then
    ["Network segmentation"; "Access restrictions"; "Monitor communications"]
  else ["Default response"].

(** The time the automated response sleeps in all, in milliseconds: one
    second, half a second in the remediation step when there is one, two
    seconds. *)
Definition response_duration (category : string) : Z :=
  match remediation_of category with
  | Some _ => 3500
  | None => 3000
  end.

(** What the automated response, run to its end, has assigned to the
    threat dict. *)
Definition automated_response_result (started ended : string) (t : Threat)
  : Threat :=
  let t := Threat_.set_status mitigating t in
  let t := Threat_.set_auto_response_started started t in
  let t := match remediation_of (t_category t) with
           | Some action => Threat_.append_response_action action t
           | None => t
           end in
  let t := Threat_.set_status resolved t in
  Threat_.set_resolved_timestamp ended t.

(** What the playbook, run to its end, has assigned to the threat dict. *)
Definition playbook_result (action_type now : string) (t : Threat) : Threat :=
  let t := Threat_.set_response_actions (playbook_of action_type) t in
  let t := Threat_.set_playbook_executed action_type t in
  let t := Threat_.set_status resolved t in
  let t := Threat_.set_resolution_timestamp now t in
  Threat_.set_resolution_summary
    ("Threat resolved using " +:+ action_type +:+ " playbook") t.


(** A file name that ends with ".exe", the case of its ASCII letters set
    aside; no name at all does not. *)
Definition has_extension_exe (filename : option string) : Prop :=
  ∃ name ext, filename = Some (name +:+ ext) ∧ Py.lower ext = ".exe".

(** ** Binary64 arithmetic *)

Module FloatFacts.

Lemma SFcompare_antisym x y :
  SFcompare y x = CompOpp <$> SFcompare x y.
Proof.
  destruct x as [[]|[]| |[] mx ex], y as [[]|[]| |[] my ey]; simpl; try reflexivity.
  all: rewrite (Z.compare_antisym ex ey); destruct (ex ?= ey)%Z; simpl; try reflexivity.
  all: change (Pos.compare_cont Eq my mx) with (Pos.compare my mx);
    change (Pos.compare_cont Eq mx my) with (Pos.compare mx my);
    rewrite (Pos.compare_antisym mx my); destruct (mx ?= my)%positive; reflexivity.
Qed.

Ltac cmp_cases :=
  repeat match goal with
  | H : context [(?a ?= ?b)%Z] |- _ => destruct (Z.compare_spec a b)
  | |- context [(?a ?= ?b)%Z] => destruct (Z.compare_spec a b)
  | H : context [Pos.compare_cont Eq ?a ?b] |- _ =>
      change (Pos.compare_cont Eq a b) with (Pos.compare a b) in *;
      destruct (Pos.compare_spec a b)
  | |- context [Pos.compare_cont Eq ?a ?b] =>
      change (Pos.compare_cont Eq a b) with (Pos.compare a b) in *;
      destruct (Pos.compare_spec a b)
  end.

Lemma SFltb_leb_trans a x b :
  SFltb a x = true -> SFleb x b = true -> SFltb a b = true.
Proof.
  unfold SFltb, SFleb.
  destruct a as [[]|[]| |[] ma ea], x as [[]|[]| |[] mx ex], b as [[]|[]| |[] mb eb];
    simpl; try congruence.
  all: cmp_cases; simpl in *; try congruence; try lia.
Qed.


Section Rounding.
Context (prec emax : Z).

Lemma shr_1_nonneg mrs : (0 <= shr_m mrs)%Z -> (0 <= shr_m (shr_1 mrs))%Z.
Proof. destruct mrs as [[|[p|p|]|p] r s]; simpl; lia. Qed.

Lemma iter_shr_1_nonneg n mrs :
  (0 <= shr_m mrs)%Z -> (0 <= shr_m (SpecFloat.iter_pos shr_1 n mrs))%Z.
Proof.
  revert mrs; induction n as [n IH|n IH|]; intros mrs Hm; simpl.
  - apply IH, IH, shr_1_nonneg, Hm.
  - apply IH, IH, Hm.
  - apply shr_1_nonneg, Hm.
Qed.

Lemma shr_fexp_nonneg m e l :
  (0 <= m)%Z -> (0 <= shr_m (shr_fexp prec emax m e l).1)%Z.
Proof.
  intros Hm. unfold shr_fexp, shr.
  assert (Hrec : (0 <= shr_m (shr_record_of_loc m l))%Z)
    by (destruct l as [|[]]; exact Hm).
  destruct (fexp prec emax (Zdigits2 m + e) - e)%Z; simpl; try exact Hrec.
  apply iter_shr_1_nonneg, Hrec.
Qed.

Lemma round_nearest_even_nonneg m l :
  (0 <= m)%Z -> (0 <= round_nearest_even m l)%Z.
Proof.
  intros Hm. destruct l as [|[]]; simpl; try lia.
  destruct (Z.even m); lia.
Qed.

Lemma binary_round_aux_nonneg m e l :
  (0 <= m)%Z -> sf_nonneg (binary_round_aux prec emax false m e l).
Proof.
  intros Hm. unfold binary_round_aux.
  pose proof (shr_fexp_nonneg m e l Hm) as H1.
  destruct (shr_fexp prec emax m e l) as [mrs' e'] eqn:E1; simpl in H1.
  pose proof (shr_fexp_nonneg _ e' loc_Exact
    (round_nearest_even_nonneg _ (loc_of_shr_record mrs') H1)) as H2.
  destruct (shr_fexp prec emax _ e' loc_Exact) as [mrs'' e''] eqn:E2; simpl in H2.
  destruct (shr_m mrs'') as [|p|p]; simpl; try lia; try exact I.
  destruct (e'' <=? emax - prec)%Z; reflexivity.
Qed.

Lemma SFadd_nonneg x y :
  sf_nonneg x -> sf_nonneg y -> sf_nonneg (SFadd prec emax x y).
Proof.
  destruct x as [sx|sx| |sx mx ex], y as [sy|sy| |sy my ey]; simpl;
    intros Hx Hy; subst; try done.
  - destruct sx, sy; exact I.
  - unfold binary_normalize, binary_round.
    destruct (shl_align mx ex (Z.min ex ey)) as [mx' ex'].
    destruct (shl_align my ey (Z.min ex ey)) as [my' ey']. simpl.
    destruct (shl_align _ _ _) as [mz ez].
    apply binary_round_aux_nonneg. lia.
Qed.

End Rounding.

(** The order of binary64 numbers, read through [Prim2SF]. *)

Lemma leb_zero_nonneg x : (0 <=? x)%float = true <-> sf_nonneg (Prim2SF x).
Proof.
  rewrite leb_spec. change (Prim2SF 0) with (S754_zero false).
  unfold SFleb. destruct (Prim2SF x) as [s|[]| |[] m e]; simpl; intuition congruence.
Qed.

Lemma add_nonneg x y :
  (0 <=? x)%float = true -> (0 <=? y)%float = true -> (0 <=? x + y)%float = true.
Proof.
  rewrite !leb_zero_nonneg, add_spec. apply SFadd_nonneg.
Qed.

Lemma ltb_leb_trans a x b :
  (a <? x)%float = true -> (x <=? b)%float = true -> (a <? b)%float = true.
Proof. rewrite !ltb_spec, leb_spec. apply SFltb_leb_trans. Qed.

Lemma ltb_irrefl a : (a <? a)%float = false.
Proof.
  rewrite ltb_spec. unfold SFltb.
  destruct (Prim2SF a) as [|[]| |[] m e]; simpl; try done.
  all: rewrite Z.compare_refl;
    change (Pos.compare_cont Eq m m) with (Pos.compare m m);
    by rewrite Pos.compare_refl.
Qed.

(** A number at most [b] is not above a bound [a] that is above [b]. *)
Lemma leb_below x a b :
  (x <=? b)%float = true -> (a <? b)%float = false -> (a <? x)%float = false.
Proof.
  intros Hx Hab. destruct (a <? x)%float eqn:E; [|done].
  by rewrite (ltb_leb_trans a x b E Hx) in Hab.
Qed.

(** Two numbers, neither a NaN, are comparable. *)
Lemma not_ltb_leb a b :
  (0 <=? a)%float = true -> (0 <=? b)%float = true ->
  (b <? a)%float = false -> (a <=? b)%float = true.
Proof.
  rewrite !leb_zero_nonneg, ltb_spec, leb_spec. unfold SFltb, SFleb.
  rewrite (SFcompare_antisym (Prim2SF b) (Prim2SF a)).
  destruct (Prim2SF a) as [|[]| |[] ? ?], (Prim2SF b) as [|[]| |[] ? ?]; simpl;
    try done.
  destruct (_ ?= _)%Z; simpl; try done.
  destruct (Pos.compare_cont _ _ _); simpl; done.
Qed.

End FloatFacts.

(** * Properties *)

(** ** Strings *)

Module StrFacts.

Lemma app_nil b : "" +:+ b = b.
Proof. reflexivity. Qed.

Lemma app_cons c a b : String c a +:+ b = String c (a +:+ b).
Proof. reflexivity. Qed.

Lemma prefix_spec p s : String.prefix p s = true <-> ∃ b, s = p +:+ b.
Proof.
  revert s; induction p as [|c p IH]; intros s.
  - destruct s; simpl; split; eauto.
  - destruct s as [|d s]; simpl.
    + split; [done | intros [b Hb]; rewrite app_cons in Hb; done].
    + setoid_rewrite app_cons.
      destruct (Ascii.ascii_dec c d) as [->|Hne].
      * rewrite IH. split; intros [b Hb]; exists b; congruence.
      * split; [done | intros [b Hb]; congruence].
Qed.

Lemma contains_head p s : String.prefix p s = true -> ∃ a b, s = a +:+ p +:+ b.
Proof. intros [b ->]%prefix_spec. exists "", b. reflexivity. Qed.

Lemma contains_unfold p s :
  Py.contains p s =
    if String.prefix p s then true
    else match s with "" => false | String _ s' => Py.contains p s' end.
Proof. destruct s; reflexivity. Qed.

Lemma contains_spec p s :
  Py.contains p s = true <-> ∃ a b, s = a +:+ p +:+ b.
Proof.
  induction s as [|c s IH]; rewrite contains_unfold.
  - destruct (String.prefix p "") eqn:E.
    + split; [intros _; by apply contains_head | done].
    + split; [done|]. intros ([|c a] & b & H); [|by rewrite app_cons in H].
      rewrite app_nil in H.
      assert (String.prefix p "" = true) by (apply prefix_spec; eauto).
      congruence.
  - destruct (String.prefix p (String c s)) eqn:E.
    + split; [intros _; by apply contains_head | done].
    + rewrite IH. split.
      * intros (a & b & ->). exists (String c a), b. reflexivity.
      * intros ([|c' a] & b & H).
        -- rewrite app_nil in H.
           assert (String.prefix p (String c s) = true)
             by (apply prefix_spec; eauto).
           congruence.
        -- rewrite app_cons in H. injection H as _ ->. eauto.
Qed.

Lemma lower_app a b : Py.lower (a +:+ b) = Py.lower a +:+ Py.lower b.
Proof.
  induction a as [|c a IH]; [done|].
  rewrite app_cons. simpl. by rewrite IH, app_cons.
Qed.

(** A split of the lower-cased string comes from a split of the string. *)
Lemma lower_split s x y :
  Py.lower s = x +:+ y -> ∃ a b, s = a +:+ b ∧ Py.lower a = x ∧ Py.lower b = y.
Proof.
  revert s; induction x as [|c x IH]; intros s H.
  - exists "", s. done.
  - rewrite app_cons in H. destruct s as [|d s]; simpl in H; [done|].
    injection H as Hc Hs. apply IH in Hs as (a & b & -> & <- & <-).
    exists (String d a), b. simpl. by rewrite Hc.
Qed.

Lemma contains_lower_spec p s :
  Py.contains p (Py.lower s) = true <-> occurs_ignoring_case p s.
Proof.
  rewrite contains_spec. unfold occurs_ignoring_case. split.
  - intros (x & y & H).
    apply lower_split in H as (a & r & -> & <- & H).
    apply lower_split in H as (w & b & -> & <- & <-). eauto.
  - intros (a & w & b & -> & <-). rewrite !lower_app. eauto.
Qed.

End StrFacts.

(** ** The scorer *)

Module ScorerFacts.
Import FloatFacts.

Lemma foldl_scan m acc l :
  foldl (scan m) acc l =
    Nat.iter (length (List.filter (fun p => Py.contains p m) l))
             (fun s => (s + 0.3)%float) acc.
Proof.
  revert acc; induction l as [|p l IH]; intros acc; [done|].
  simpl. rewrite IH. unfold scan.
  destruct (Py.contains p m); [|done].
  simpl length. symmetry. apply (Nat.iter_succ_r _ (fun s => s + 0.3)%float).
Qed.

Lemma foldl_scan_nonneg m acc l :
  (0 <=? acc)%float = true -> (0 <=? foldl (scan m) acc l)%float = true.
Proof.
  revert acc; induction l as [|p l IH]; intros acc Hacc; [done|].
  simpl. apply IH. unfold scan.
  destruct (Py.contains p m); [|done]. by apply add_nonneg.
Qed.

Lemma level_scores_get level :
  Py.get level_scores level 0.1%float = level_increment level.
Proof.
  unfold Py.get, level_increment, level_scores. simpl.
  repeat case_decide; destruct (decide (level = "INFO"));
    simplify_map_eq; reflexivity.
Qed.

Lemma level_increment_nonneg level :
  (0 <=? level_increment level)%float = true.
Proof. unfold level_increment. repeat case_decide; reflexivity. Qed.

Lemma keyword_hits_le message : keyword_hits message ≤ 8.
Proof.
  unfold keyword_hits, matched_keywords.
  etrans; [apply List.filter_length_le|]. reflexivity.
Qed.

Lemma risk_patterns_NoDup : NoDup risk_patterns.
Proof. apply (bool_decide_unpack (NoDup risk_patterns)). vm_compute. exact I. Qed.

(** The keywords counted are those of the vocabulary that occur in the
    message whatever the case of its ASCII letters, each listed once. *)
Lemma matched_keywords_spec message p :
  p ∈ matched_keywords message <->
  p ∈ risk_patterns ∧ occurs_ignoring_case p message.
Proof.
  unfold matched_keywords.
  rewrite !list_elem_of_In, List.filter_In, <- !list_elem_of_In.
  by rewrite StrFacts.contains_lower_spec.
Qed.

Lemma matched_keywords_NoDup message : NoDup (matched_keywords message).
Proof.
  apply NoDup_ListNoDup, List.NoDup_filter, NoDup_ListNoDup, risk_patterns_NoDup.
Qed.

Lemma min_one_bounds s :
  (0 <=? s)%float = true ->
  (0 <=? Py.min s 1)%float = true ∧ (Py.min s 1 <=? 1)%float = true.
Proof.
  intros Hs. unfold Py.min. destruct (1 <? s)%float eqn:E.
  - split; reflexivity.
  - split; [done|]. by apply not_ltb_leb.
Qed.

Lemma choice_elem seq r : seq ≠ [] -> Py.choice seq r ∈ seq.
Proof.
  intros Hne. unfold Py.choice.
  assert (Hlt : r mod length seq < length seq).
  { apply Nat.mod_upper_bound. by destruct seq. }
  apply lookup_lt_is_Some in Hlt as [x Hx]. rewrite Hx. simpl.
  by eapply list_elem_of_lookup_2.
Qed.

End ScorerFacts.

Import ScorerFacts.

(** C2.  The anomaly score is the base 0.1, plus 0.3 for each of the eight
    risk keywords that occurs in the message whatever the case of its
    letters (a keyword counts once), plus the increment of the level
    (CRITICAL 0.4, ERROR 0.3, WARN 0.2, otherwise 0.1), plus the
    perturbation, clamped above at 1.0; and for a perturbation in [0, 0.2)
    the score lies in [0, 1].  The additions are binary64 additions, in the
    order of the code. *)
Theorem detect_anomaly_formula (log_entry : LogEntry) (noise : float) :
  (0 <=? noise)%float = true ->
  (noise <? 0.2)%float = true ->
  let hits := keyword_hits (le_message log_entry) in
  let score := detect_anomaly log_entry noise in
  score = Py.min (Nat.iter hits (fun s => s + 0.3) 0.1
                  + level_increment (le_level log_entry) + noise)%float 1%float
  ∧ hits ≤ 8
  ∧ (∀ p, p ∈ matched_keywords (le_message log_entry) <->
          p ∈ risk_patterns ∧ occurs_ignoring_case p (le_message log_entry))
  ∧ NoDup (matched_keywords (le_message log_entry))
  ∧ (0 <=? score)%float = true
  ∧ (score <=? 1)%float = true.
Proof.
  intros Hlo _ hits score.
  assert (Heq : score
    = Py.min (Nat.iter hits (fun s => s + 0.3) 0.1
              + level_increment (le_level log_entry) + noise)%float 1%float).
  { unfold score, detect_anomaly. by rewrite foldl_scan, level_scores_get. }
  split; [exact Heq|]. split; [apply keyword_hits_le|].
  split; [intros p; apply matched_keywords_spec|].
  split; [apply matched_keywords_NoDup|].
  assert (Hsum : (0 <=? foldl (scan (Py.lower (le_message log_entry))) 0.1
                          risk_patterns
                        + level_increment (le_level log_entry) + noise)%float = true).
  { apply FloatFacts.add_nonneg; [|exact Hlo].
    apply FloatFacts.add_nonneg; [|apply level_increment_nonneg].
    by apply foldl_scan_nonneg. }
  unfold score, detect_anomaly. rewrite level_scores_get.
  by apply min_one_bounds.
Qed.

Lemma detect_anomaly_formula_witness :
  let e := {| le_source := "fw1"; le_level := "CRITICAL";
              le_message := "Brute Force attack detected";
              le_metadata := [] |} in
  detect_anomaly e 0.05 = 0.85000000000000009%float
  ∧ (0 <=? detect_anomaly e 0.05)%float = true
  ∧ (detect_anomaly e 0.05 <=? 1)%float = true.
Proof.
  intros e.
  destruct (detect_anomaly_formula e 0.05 eq_refl eq_refl)
    as (H & _ & _ & _ & H0 & H1).
  split; [|split; assumption].
  rewrite H. vm_compute. reflexivity.
Defined.

Lemma classify_threat_tiers (score : float) (source : string) (pick : nat) :
  classify_threat score source pick =
    if (0.9 <? score)%float then
      {| c_severity := critical;
         c_category := Py.choice ["APT"; "Zero-day"; "Data Breach"] pick;
         c_risk_level := 5; c_immediate_action := true |}
    else if (0.7 <? score)%float then
      {| c_severity := high;
         c_category := Py.choice ["DDoS"; "Malware"; "Brute Force"] pick;
         c_risk_level := 4; c_immediate_action := true |}
    else if (0.5 <? score)%float then
      {| c_severity := medium;
         c_category := Py.choice ["Phishing"; "Policy Violation"] pick;
         c_risk_level := 3; c_immediate_action := false |}
    else
      {| c_severity := low; c_category := "Informational";
         c_risk_level := 1; c_immediate_action := false |}.
Proof. reflexivity. Qed.

(** C6.  Classification by thresholds: above 0.9 critical, risk 5,
    immediate, category among APT, Zero-day, Data Breach; above 0.7 and at
    most 0.9 high, risk 4, immediate, category among DDoS, Malware, Brute
    Force; above 0.5 and at most 0.7 medium, risk 3, not immediate, category
    among Phishing, Policy Violation; at most 0.5 low, risk 1, not
    immediate, category Informational.  Severity, risk level and the
    immediate-action flag do not depend on the draw. *)
Theorem classify_threat_thresholds (score : float) (source : string) (pick : nat) :
  let c := classify_threat score source pick in
  ((0.9 <? score)%float = true ->
     c_severity c = critical ∧ c_risk_level c = 5%Z ∧ c_immediate_action c = true
     ∧ c_category c ∈ ["APT"; "Zero-day"; "Data Breach"])
  ∧ ((0.7 <? score)%float = true -> (score <=? 0.9)%float = true ->
     c_severity c = high ∧ c_risk_level c = 4%Z ∧ c_immediate_action c = true
     ∧ c_category c ∈ ["DDoS"; "Malware"; "Brute Force"])
  ∧ ((0.5 <? score)%float = true -> (score <=? 0.7)%float = true ->
     c_severity c = medium ∧ c_risk_level c = 3%Z ∧ c_immediate_action c = false
     ∧ c_category c ∈ ["Phishing"; "Policy Violation"])
  ∧ ((score <=? 0.5)%float = true ->
     c_severity c = low ∧ c_risk_level c = 1%Z ∧ c_immediate_action c = false
     ∧ c_category c = "Informational")
  ∧ (∀ pick',
       let c' := classify_threat score source pick' in
       c_severity c' = c_severity c ∧ c_risk_level c' = c_risk_level c
       ∧ c_immediate_action c' = c_immediate_action c).
Proof.
  intros c. unfold c. repeat split.
  all: try (rewrite !classify_threat_tiers;
            repeat match goal with |- context [(?a <? ?b)%float] =>
              destruct (a <? b)%float end; reflexivity).
  all: rewrite classify_threat_tiers.
  all: repeat match goal with
       | H : (?a <? ?s)%float = true |- _ => rewrite H; clear H
       | H : (?s <=? ?b)%float = true |- context [(?a <? ?s)%float] =>
           rewrite (FloatFacts.leb_below s a b H eq_refl)
       end; simpl; try reflexivity.
  all: apply choice_elem; done.
Qed.

Lemma classify_threat_thresholds_witness :
  c_severity (classify_threat 0.95 "fw1" 0) = critical
  ∧ c_severity (classify_threat 0.8 "fw1" 1) = high
  ∧ c_severity (classify_threat 0.6 "fw1" 2) = medium
  ∧ c_severity (classify_threat 0.3 "fw1" 3) = low.
Proof.
  split; [|split; [|split]].
  - exact (proj1 (proj1 (classify_threat_thresholds 0.95 "fw1" 0) eq_refl)).
  - exact (proj1 (proj1 (proj2 (classify_threat_thresholds 0.8 "fw1" 1))
                    eq_refl eq_refl)).
  - exact (proj1 (proj1 (proj2 (proj2 (classify_threat_thresholds 0.6 "fw1" 2)))
                    eq_refl eq_refl)).
  - exact (proj1 (proj1 (proj2 (proj2 (proj2
                    (classify_threat_thresholds 0.3 "fw1" 3)))) eq_refl)).
Defined.

(** ** The store *)

Module StoreFacts.

Lemma empty_store_wf : store_wf empty_store.
Proof. repeat split; intros i x Hx; simpl in Hx; by rewrite lookup_nil in Hx. Qed.

Lemma find_threat_wf s threat_id :
  store_wf s ->
  Store_.find_threat s threat_id =
    if decide (1 ≤ threat_id ≤ Z.of_nat (length (heap s)))%Z
    then Some (Z.to_nat (threat_id - 1)) else None.
Proof.
  intros (Hact & _ & Hid & _). unfold Store_.find_threat. rewrite Hact.
  destruct (list_find _ _) as [[i x]|] eqn:E; simpl.
  - apply list_find_Some in E as ([-> Hi]%lookup_seq & HP & _).
    simpl in HP. destruct (heap s !! i) as [t|] eqn:Ht; simpl in HP; [|done].
    injection HP as HP. rewrite (Hid _ _ Ht) in HP.
    rewrite decide_True by lia. f_equal. lia.
  - case_decide as Hrange; [|done]. exfalso.
    assert (Hr : Z.to_nat (threat_id - 1) < length (heap s)) by lia.
    destruct (lookup_lt_is_Some_2 _ _ Hr) as [t Ht].
    apply list_find_None in E.
    apply (proj1 (Forall_forall _ _) E (Z.to_nat (threat_id - 1))).
    + apply list_elem_of_lookup. exists (Z.to_nat (threat_id - 1)).
      by apply lookup_seq_lt.
    + rewrite Ht. simpl. f_equal. rewrite (Hid _ _ Ht). lia.
Qed.

(** Under [store_wf], looking a threat up by identifier finds the dict that
    carries the identifier. *)
Lemma find_threat_Some s threat_id r :
  store_wf s ->
  Store_.find_threat s threat_id = Some r <->
  ∃ t, heap s !! r = Some t ∧ t_id t = threat_id.
Proof.
  intros Hwf. rewrite (find_threat_wf _ _ Hwf).
  destruct Hwf as (_ & _ & Hid & _). case_decide as Hrange; split.
  - intros [= <-].
    destruct (lookup_lt_is_Some_2 (heap s) (Z.to_nat (threat_id - 1))) as [t Ht];
      [lia|].
    exists t. split; [done|]. rewrite (Hid _ _ Ht). lia.
  - intros (t & Ht & <-). rewrite (Hid _ _ Ht). f_equal. lia.
  - done.
  - intros (t & Ht & <-). rewrite (Hid _ _ Ht) in Hrange.
    apply lookup_lt_Some in Ht. lia.
Qed.

Lemma find_threat_None s threat_id :
  store_wf s ->
  Store_.find_threat s threat_id = None <->
  ∀ t, t ∈ heap s -> t_id t ≠ threat_id.
Proof.
  intros Hwf. split.
  - intros Hnone t [r Ht]%list_elem_of_lookup_1 Heq.
    assert (Store_.find_threat s threat_id = Some r)
      by (apply find_threat_Some; eauto).
    congruence.
  - intros Hall. destruct (Store_.find_threat s threat_id) as [r|] eqn:E; [|done].
    apply find_threat_Some in E as (t & Ht & Heq); [|done].
    exfalso. eapply Hall; [|done]. by eapply list_elem_of_lookup_2.
Qed.

Lemma find_alert_wf s i a :
  store_wf s -> system_alerts s !! i = Some a ->
  Store_.find_alert s (a_id a) = Some (i, a).
Proof.
  intros (_ & _ & _ & Hid) Ha. unfold Store_.find_alert.
  apply list_find_Some. split; [done|]. split; [done|].
  intros j b Hb Hlt. rewrite (Hid _ _ Ha), (Hid _ _ Hb). lia.
Qed.

Lemma deref_all s n :
  n ≤ length (heap s) -> Store_.deref s (seq 0 n) = take n (heap s).
Proof.
  unfold Store_.deref. induction n as [|n IH]; intros Hn.
  - by rewrite take_0.
  - rewrite seq_S, omap_app, IH by lia. simpl.
    destruct (lookup_lt_is_Some_2 (heap s) n) as [t Ht]; [lia|].
    rewrite Ht. simpl. by erewrite take_S_r.
Qed.

Lemma deref_active s :
  store_wf s -> Store_.deref s (active_threats s) = heap s.
Proof.
  intros (-> & _). rewrite deref_all by done. by rewrite firstn_all.
Qed.

Lemma deref_history s :
  store_wf s -> Store_.deref s (threat_history s) = heap s.
Proof.
  intros (_ & -> & _). rewrite deref_all by done. by rewrite firstn_all.
Qed.

Lemma ids_upto_S n : ids_upto (S n) = ids_upto n ++ [(Z.of_nat n + 1)%Z].
Proof. unfold ids_upto. by rewrite seq_S, fmap_app. Qed.

Lemma ids_pointwise {A} (f : A -> Z) (l : list A) :
  (∀ i x, l !! i = Some x -> f x = (Z.of_nat i + 1)%Z) ->
  f <$> l = ids_upto (length l).
Proof.
  intros H. apply list_eq. intros i. unfold ids_upto.
  rewrite !list_lookup_fmap.
  destruct (l !! i) as [x|] eqn:E; simpl.
  - rewrite lookup_seq_lt by (by eapply lookup_lt_Some). simpl.
    by rewrite (H _ _ E).
  - rewrite lookup_seq_ge; [done|]. by apply lookup_ge_None.
Qed.

End StoreFacts.

(** ** Invariants of a run *)

Module RunFacts.
Import StoreFacts.

Ltac keeps := intros ?; split; reflexivity.

Lemma update_heap r f s i :
  heap (Store_.update r f s) !! i =
    if decide (r = i) then f <$> heap s !! r else heap s !! i.
Proof. apply list_lookup_alter. Qed.

Lemma update_wf r f s :
  keeps_identity f -> store_wf s -> store_wf (Store_.update r f s).
Proof.
  intros Hf (Hact & Hhist & Hid & Hal). unfold store_wf, Store_.update. simpl.
  rewrite length_alter. repeat split; try done.
  intros i t. rewrite list_lookup_alter. case_decide as E; [subst i|by auto].
  destruct (heap s !! r) as [t0|] eqn:Ht0; simpl; [|done].
  intros [= <-]. rewrite (proj1 (Hf t0)). by apply Hid.
Qed.

Lemma extends_refl s : extends s s.
Proof. intros r t Ht. eauto. Qed.

Lemma extends_trans s1 s2 s3 : extends s1 s2 -> extends s2 s3 -> extends s1 s3.
Proof.
  intros H12 H23 r t Ht.
  destruct (H12 _ _ Ht) as (t2 & Ht2 & Hi2 & Hc2).
  destruct (H23 _ _ Ht2) as (t3 & Ht3 & Hi3 & Hc3).
  exists t3. repeat split; congruence.
Qed.

Lemma update_extends r f s :
  keeps_identity f -> extends s (Store_.update r f s).
Proof.
  intros Hf i t Ht. rewrite update_heap. case_decide as E; [subst i|by eauto].
  rewrite Ht. simpl. exists (f t). split; [done|]. apply Hf.
Qed.

Lemma coroutine_ok_extends s s' c :
  extends s s' -> coroutine_ok s c -> coroutine_ok s' c.
Proof.
  intros Hext. destruct c; simpl; try done.
  all: intros (r & t & Ht & Hid & Hcat);
    destruct (Hext _ _ Ht) as (t' & Ht' & Hi & Hc);
    exists r, t'; repeat split; congruence.
Qed.

(** Two threat dicts with one identifier are one dict. *)
Lemma wf_same_ref s r r' t t' :
  store_wf s -> heap s !! r = Some t -> heap s !! r' = Some t' ->
  t_id t = t_id t' -> r = r'.
Proof.
  intros (_ & _ & Hid & _) Ht Ht' Heq.
  rewrite (Hid _ _ Ht), (Hid _ _ Ht') in Heq. lia.
Qed.

(** What [analyze_log] returns and does, in both branches. *)
Lemma analyze_log_cases log_entry o s :
  let score := detect_anomaly log_entry (noise o) in
  let c := classify_threat score (le_source log_entry) (pick o) in
  ∃ r s' bg,
    analyze_log log_entry o s = (r, s', bg)
    ∧ r_log_id r = (Z.of_nat (length (threat_history s)) + 1)%Z
    ∧ r_anomaly_score r = score
    ∧ if (0.6 <? score)%float then
        ∃ t a,
          heap s' = heap s ++ [t]
          ∧ active_threats s' = active_threats s ++ [length (heap s)]
          ∧ threat_history s' = threat_history s ++ [length (heap s)]
          ∧ system_alerts s' = system_alerts s ++ [a]
          ∧ t_id t = (Z.of_nat (length (active_threats s)) + 1)%Z
          ∧ a_id a = (Z.of_nat (length (system_alerts s)) + 1)%Z
          ∧ a_threat_id a = t_id t
          ∧ t_status t = active
          ∧ t_category t = c_category c
          ∧ t_severity t = c_severity c
          ∧ r_threat_detected r = Some true
          ∧ r_threat r = Some t
          ∧ r_alert r = Some a
          ∧ bg = (if c_immediate_action c
                  then [initiate_automated_response_start (t_id t)] else [])
      else
        s' = s ∧ r_threat_detected r = None ∧ r_threat r = None
        ∧ r_alert r = None ∧ bg = [].
Proof.
  intros score c. unfold analyze_log. fold score. fold c.
  destruct (0.6 <? score)%float.
  - eexists _, _, _. split; [reflexivity|]. split; [done|]. split; [done|].
    eexists _, _. simpl. repeat split; reflexivity.
  - eexists _, _, _. split; [reflexivity|]. repeat split; done.
Qed.

(** A classification that asks for immediate action draws its category
    from the critical or the high vocabulary. *)
Lemma immediate_category score source pick :
  c_immediate_action (classify_threat score source pick) = true ->
  c_category (classify_threat score source pick) ∈ auto_categories.
Proof.
  rewrite classify_threat_tiers.
  destruct (0.9 <? score)%float; [|destruct (0.7 <? score)%float;
    [|destruct (0.5 <? score)%float; simpl; done]]; simpl; intros _.
  - eapply (proj1 (Forall_forall (fun x => x ∈ auto_categories) _));
      [|by apply choice_elem].
    unfold auto_categories. repeat constructor.
  - eapply (proj1 (Forall_forall (fun x => x ∈ auto_categories) _));
      [|by apply choice_elem].
    unfold auto_categories. repeat constructor.
Qed.

Lemma analyze_log_wf log_entry o s :
  store_wf s ->
  store_wf (analyze_log log_entry o s).1.2
  ∧ extends s (analyze_log log_entry o s).1.2
  ∧ Forall (coroutine_ok (analyze_log log_entry o s).1.2)
           (analyze_log log_entry o s).2.
Proof.
  intros Hwf.
  destruct (analyze_log_cases log_entry o s) as (r & s' & bg & -> & _ & _ & H).
  simpl. destruct (0.6 <? _)%float.
  - destruct H as (t & a & Hh & Ha & Hhi & Hal & Hti & Hai & _ & _ & Hcat
                   & _ & _ & _ & _ & Hbg).
    destruct Hwf as (Hact & Hhist & Hid & Halid).
    assert (Hlen : length (active_threats s) = length (heap s))
      by (by rewrite Hact, length_seq).
    split; [|split].
    + unfold store_wf. rewrite Ha, Hhi, Hh, Hal, Hact, Hhist, length_app. simpl.
      rewrite Nat.add_1_r, seq_S. repeat split; try done.
      * intros i x [Hx|[Hle Hx]]%lookup_app_Some; [by apply Hid|].
        apply list_lookup_singleton_Some in Hx as [Hi <-].
        rewrite Hti, Hlen. lia.
      * intros i x [Hx|[Hle Hx]]%lookup_app_Some; [by apply Halid|].
        apply list_lookup_singleton_Some in Hx as [Hi <-].
        rewrite Hai. lia.
    + intros i x Hx. exists x. rewrite Hh. split; [|done].
      by apply lookup_app_l_Some.
    + rewrite Hbg. destruct (c_immediate_action _) eqn:Him; [|constructor].
      constructor; [|constructor]. simpl.
      exists (length (heap s)), t. rewrite Hh. split; [|split; [done|]].
      * by rewrite lookup_app_r, Nat.sub_diag.
      * rewrite Hcat. by apply immediate_category.
  - destruct H as (-> & _ & _ & _ & ->).
    split; [done|]. split; [apply extends_refl|constructor].
Qed.

Lemma respond_to_threat_wf threat_id response now s :
  store_wf s ->
  store_wf (respond_to_threat threat_id response now s).1.2
  ∧ extends s (respond_to_threat threat_id response now s).1.2
  ∧ Forall (coroutine_ok (respond_to_threat threat_id response now s).1.2)
           (respond_to_threat threat_id response now s).2.
Proof.
  intros Hwf. unfold respond_to_threat.
  destruct (Store_.find_threat s threat_id) as [r|]; simpl.
  2: { split; [done|]. split; [apply extends_refl|constructor]. }
  case_bool_decide; simpl.
  { split; [done|]. split; [apply extends_refl|constructor]. }
  split; [|split].
  - repeat apply update_wf; try done; keeps.
  - repeat (eapply extends_trans; [|apply update_extends; keeps]).
    apply extends_refl.
  - by repeat constructor.
Qed.

Lemma update_alert_wf i f s :
  (∀ a, a_id (f a) = a_id a) -> store_wf s ->
  store_wf (Store_.update_alert i f s).
Proof.
  intros Hf (Hact & Hhist & Hid & Hal). repeat split; try done.
  simpl. intros j b. rewrite list_lookup_alter.
  case_decide as E; [subst j|by auto].
  destruct (system_alerts s !! i) as [a0|] eqn:Ha0; simpl; [|done].
  intros [= <-]. rewrite Hf. by apply Hal.
Qed.

Lemma mark_alert_read_wf alert_id now s :
  store_wf s ->
  store_wf (mark_alert_read alert_id now s).2
  ∧ heap (mark_alert_read alert_id now s).2 = heap s.
Proof.
  intros Hwf. unfold mark_alert_read.
  destruct (Store_.find_alert s alert_id) as [[i a]|]; simpl; [|done].
  split; [|done]. by repeat apply update_alert_wf.
Qed.

(** The segment of the automated response that follows [sleep(1)] goes on
    to the IP block, to the isolation or straight to the final sleep, for a
    threat of an immediate-action category. *)
Lemma dispatch_auto category :
  category ∈ auto_categories ->
  (Py.in_list category ["DDoS"; "Brute Force"] = true)
  ∨ (Py.in_list category ["DDoS"; "Brute Force"] = false
     ∧ Py.in_list category ["Malware"; "APT"] = true)
  ∨ (Py.in_list category ["DDoS"; "Brute Force"] = false
     ∧ Py.in_list category ["Malware"; "APT"] = false
     ∧ bool_decide (category = "Phishing") = false).
Proof.
  unfold auto_categories. rewrite !elem_of_cons, elem_of_nil.
  intros [->|[->|[->|[->|[->|[->|[]]]]]]]; vm_compute; tauto.
Qed.

Lemma resume_wf c time now s :
  store_wf s -> coroutine_ok s c ->
  store_wf (resume c time now s).1
  ∧ extends s (resume c time now s).1
  ∧ (∀ c', (resume c time now s).2 = Some c' ->
           coroutine_ok (resume c time now s).1 c').
Proof.
  intros Hwf Hok.
  assert (Hupd : ∀ r f s0, store_wf s0 -> keeps_identity f ->
            store_wf (Store_.update r f s0) ∧ extends s0 (Store_.update r f s0)).
  { intros. split; [by apply update_wf | by apply update_extends]. }
  destruct c as [threat_id|threat_id w|r w|r w|r w|r w|threat_id action|r action w];
    unfold resume; cbv zeta.
  - split; [done|]. split; [apply extends_refl|]. by intros c' [= <-].
  - destruct Hok as (r & t & Ht & Hid & Hcat).
    assert (Hfind : Store_.find_threat s threat_id = Some r)
      by (apply find_threat_Some; eauto).
    rewrite Hfind.
    set (s1 := Store_.update r (Threat_.set_status mitigating) s).
    set (s2 := Store_.update r (Threat_.set_auto_response_started now) s1).
    assert (H2 : store_wf s2 ∧ extends s s2).
    { destruct (Hupd r (Threat_.set_status mitigating) s Hwf) as [W1 E1]; [keeps|].
      destruct (Hupd r (Threat_.set_auto_response_started now) s1 W1)
        as [W2 E2]; [keeps|].
      split; [done|]. by eapply extends_trans. }
    assert (Hc : default "" (t_category <$> heap s2 !! r) = t_category t).
    { unfold s2, s1. rewrite !update_heap, !decide_True by done.
      by rewrite Ht. }
    rewrite Hc.
    destruct (dispatch_auto _ Hcat) as [-> | [[-> ->] | (-> & -> & ->)]];
      simpl; (split; [apply H2|split; [apply H2|]]);
      by intros c' [= <-].
  - destruct (Hupd r (Threat_.append_response_action
                        "IP address blocked at firewall") s Hwf) as [W E];
      [keeps|].
    split; [done|]. split; [done|]. by intros c' [= <-].
  - destruct (Hupd r (Threat_.append_response_action
                        "System isolated from network") s Hwf) as [W E];
      [keeps|].
    split; [done|]. split; [done|]. by intros c' [= <-].
  - destruct Hok.
  - destruct (Hupd r (Threat_.set_status resolved) s Hwf) as [W1 E1]; [keeps|].
    destruct (Hupd r (Threat_.set_resolved_timestamp now) _ W1) as [W2 E2];
      [keeps|].
    split; [done|]. split; [by eapply extends_trans|]. done.
  - destruct (Store_.find_threat s threat_id) as [r|]; simpl.
    2: { split; [done|]. split; [apply extends_refl|done]. }
    destruct (Hupd r (Threat_.set_response_actions
                        (Py.get playbook_actions action ["Default response"]))
                s Hwf) as [W1 E1]; [keeps|].
    destruct (Hupd r (Threat_.set_playbook_executed action) _ W1) as [W2 E2];
      [keeps|].
    split; [done|]. split; [by eapply extends_trans|]. by intros c' [= <-].
  - destruct (Hupd r (Threat_.set_status resolved) s Hwf) as [W1 E1]; [keeps|].
    destruct (Hupd r (Threat_.set_resolution_timestamp now) _ W1) as [W2 E2];
      [keeps|].
    destruct (Hupd r (Threat_.set_resolution_summary
                 ("Threat resolved using " +:+ action +:+ " playbook")) _ W2)
      as [W3 E3]; [keeps|].
    split; [done|]. split; [|done].
    eapply extends_trans; [|done]. by eapply extends_trans.
Qed.

Lemma step_wf e sys : sys_wf sys -> sys_wf (step e sys).2.
Proof.
  intros [Hwf Hpend].
  destruct e as [log_entry o|limit|tid resp now|aid now|ms|k now]; simpl.
  - destruct (analyze_log_wf log_entry o (store sys) Hwf) as (W & E & B).
    destruct (analyze_log log_entry o (store sys)) as [[r s'] bg]; simpl in *.
    split; [done|]. apply Forall_app. split; [|done].
    eapply Forall_impl; [done|]. intros c. by apply coroutine_ok_extends.
  - done.
  - destruct (respond_to_threat_wf tid resp now (store sys) Hwf) as (W & E & B).
    destruct (respond_to_threat tid resp now (store sys)) as [[r s'] bg];
      simpl in *.
    split; [done|]. apply Forall_app. split; [|done].
    eapply Forall_impl; [done|]. intros c. by apply coroutine_ok_extends.
  - destruct (mark_alert_read_wf aid now (store sys) Hwf) as (W & Hheap).
    destruct (mark_alert_read aid now (store sys)) as [r s']; simpl in *.
    split; [done|].
    eapply Forall_impl; [done|]. intros c. apply coroutine_ok_extends.
    intros i t Ht. simpl. rewrite Hheap. eauto.
  - done.
  - destruct (pending sys !! k) as [c|] eqn:Hk; [|done].
    destruct (due c (loop_time sys)); [|done].
    assert (Hc : coroutine_ok (store sys) c)
      by (eapply Forall_lookup_1; done).
    destruct (resume_wf c (loop_time sys) now (store sys) Hwf Hc) as (W & E & R).
    destruct (resume c (loop_time sys) now (store sys)) as [s' rest]; simpl in *.
    split; [done|].
    assert (Hall : Forall (coroutine_ok s') (pending sys)).
    { eapply Forall_impl; [done|]. intros c0. by apply coroutine_ok_extends. }
    apply Forall_app. split; [by apply Forall_take|].
    apply Forall_app. split; [|by apply Forall_drop].
    destruct rest as [c'|]; simpl; [|constructor].
    constructor; [by apply R|constructor].
Qed.

Lemma exec_cons e es sys : exec (e :: es) sys = exec es (step e sys).2.
Proof.
  unfold exec. cbn [run]. destruct (step e sys) as [o sys']. cbn [snd].
  by destruct (run es sys').
Qed.

Lemma exec_app es es' sys : exec (es ++ es') sys = exec es' (exec es sys).
Proof.
  revert sys; induction es as [|e es IH]; intros sys; [done|].
  by rewrite <- app_comm_cons, !exec_cons, IH.
Qed.

Lemma exec_wf es sys : sys_wf sys -> sys_wf (exec es sys).
Proof.
  revert sys; induction es as [|e es IH]; intros sys Hwf; [done|].
  rewrite exec_cons. by apply IH, step_wf.
Qed.

Lemma boot_wf : sys_wf boot.
Proof. split; [apply empty_store_wf | constructor]. Qed.

Lemma reachable_wf sys : reachable sys -> sys_wf sys.
Proof. intros [es ->]. apply exec_wf, boot_wf. Qed.

End RunFacts.

(** ** Growth of the store along a run *)

Module GrowFacts.
Import StoreFacts RunFacts.

Lemma resume_frame c time now s :
  let s' := (resume c time now s).1 in
  system_alerts s' = system_alerts s
  ∧ threat_history s' = threat_history s
  ∧ active_threats s' = active_threats s
  ∧ length (heap s') = length (heap s).
Proof.
  destruct c; unfold resume; cbv zeta; repeat case_match; simpl;
    rewrite ?length_alter; done.
Qed.

Lemma respond_to_threat_frame threat_id response now s :
  let s' := (respond_to_threat threat_id response now s).1.2 in
  system_alerts s' = system_alerts s
  ∧ threat_history s' = threat_history s
  ∧ active_threats s' = active_threats s
  ∧ length (heap s') = length (heap s).
Proof.
  unfold respond_to_threat; repeat case_match; simpl;
    rewrite ?length_alter; done.
Qed.

Lemma mark_alert_read_frame alert_id now s :
  let s' := (mark_alert_read alert_id now s).2 in
  heap s' = heap s
  ∧ threat_history s' = threat_history s
  ∧ active_threats s' = active_threats s
  ∧ length (system_alerts s') = length (system_alerts s).
Proof.
  unfold mark_alert_read; repeat case_match; simpl;
    rewrite ?length_alter; done.
Qed.

Lemma step_grows e sys : grows (store sys) (store (step e sys).2).
Proof.
  unfold grows.
  destruct e as [log_entry o|limit|tid resp now|aid now|ms|k now]; simpl.
  - destruct (analyze_log_cases log_entry o (store sys))
      as (r & s' & bg & -> & _ & _ & H). simpl.
    destruct (0.6 <? _)%float.
    + destruct H as (t & a & -> & _ & _ & -> & _). rewrite !length_app. lia.
    + by destruct H as (-> & _).
  - done.
  - pose proof (respond_to_threat_frame tid resp now (store sys)) as H.
    destruct (respond_to_threat tid resp now (store sys)) as [[r s'] bg].
    simpl in *. destruct H as (-> & _ & _ & ->). done.
  - pose proof (mark_alert_read_frame aid now (store sys)) as H.
    destruct (mark_alert_read aid now (store sys)) as [r s'].
    simpl in *. destruct H as (-> & _ & _ & ->). done.
  - done.
  - destruct (pending sys !! k) as [c|]; [|done].
    destruct (due c (loop_time sys)); [|done].
    pose proof (resume_frame c (loop_time sys) now (store sys)) as H.
    destruct (resume c (loop_time sys) now (store sys)) as [s' rest].
    simpl in *. destruct H as (-> & _ & _ & ->). done.
Qed.

Lemma exec_grows es sys : grows (store sys) (store (exec es sys)).
Proof.
  revert sys; induction es as [|e es IH]; intros sys; [done|].
  rewrite exec_cons. destruct (step_grows e sys) as [H1 H2].
  destruct (IH (step e sys).2) as [H3 H4]. split; lia.
Qed.

Lemma ids_upto_prefix n m : n ≤ m -> ids_upto n `prefix_of` ids_upto m.
Proof.
  intros Hle. replace m with (n + (m - n)) by lia.
  unfold ids_upto. rewrite seq_app, fmap_app. by eexists.
Qed.

Lemma ids_upto_lookup n i x :
  ids_upto n !! i = Some x -> x = (Z.of_nat i + 1)%Z ∧ i < n.
Proof.
  unfold ids_upto. rewrite list_lookup_fmap.
  destruct (seq 0 n !! i) as [j|] eqn:E; simpl; [|done].
  apply lookup_seq in E as [-> Hi]. by intros [= <-].
Qed.

Lemma ids_upto_sorted n : StronglySorted Z.lt (ids_upto n).
Proof.
  induction n as [|n IH]; [constructor|].
  rewrite ids_upto_S. apply StronglySorted_app_2; [|done|repeat constructor].
  intros x y [i Hx]%list_elem_of_lookup_1 ->%list_elem_of_singleton.
  apply ids_upto_lookup in Hx as [-> Hi]. lia.
Qed.

Lemma ids_upto_NoDup n : NoDup (ids_upto n).
Proof.
  apply NoDup_alt. intros i j x [-> _]%ids_upto_lookup [E _]%ids_upto_lookup.
  lia.
Qed.

Lemma threat_ids_wf sys :
  sys_wf sys -> threat_ids sys = ids_upto (length (heap (store sys))).
Proof.
  intros [Hwf _]. unfold threat_ids. rewrite deref_active by done.
  apply ids_pointwise, Hwf.
Qed.

Lemma alert_ids_wf sys :
  sys_wf sys -> alert_ids sys = ids_upto (length (system_alerts (store sys))).
Proof. intros [Hwf _]. apply ids_pointwise, Hwf. Qed.

Lemma ids_upto_length n : length (ids_upto n) = n.
Proof. unfold ids_upto. by rewrite length_fmap, length_seq. Qed.

End GrowFacts.

(** * The claims of the specification *)

Import StoreFacts RunFacts.

(** C3.  In any state of a run, a call of /analyze whose score is above 0.6
    allocates exactly one threat and appends exactly one alert; the threat
    starts active, its identifier and the alert's are one more than the
    number of threats, respectively alerts, created before and so exceed
    every earlier identifier, the alert names the threat, and the response
    carries both.  A call whose score is at most 0.6 leaves the store as it
    is, schedules nothing and answers without a threat payload. *)
Theorem analyze_log_creates (sys : System) (log_entry : LogEntry) (o : Oracle) :
  reachable sys ->
  let s := store sys in
  let score := detect_anomaly log_entry (noise o) in
  ∃ r s' bg,
    analyze_log log_entry o s = (r, s', bg)
    ∧ r_anomaly_score r = score
    ∧ ((0.6 <? score)%float = true ->
         ∃ t a,
           heap s' = heap s ++ [t]
           ∧ active_threats s' = active_threats s ++ [length (heap s)]
           ∧ threat_history s' = threat_history s ++ [length (heap s)]
           ∧ system_alerts s' = system_alerts s ++ [a]
           ∧ t_status t = active
           ∧ t_id t = (Z.of_nat (length (heap s)) + 1)%Z
           ∧ a_id a = (Z.of_nat (length (system_alerts s)) + 1)%Z
           ∧ (∀ t0, t0 ∈ heap s -> (t_id t0 < t_id t)%Z)
           ∧ (∀ a0, a0 ∈ system_alerts s -> (a_id a0 < a_id a)%Z)
           ∧ a_threat_id a = t_id t
           ∧ r_threat_detected r = Some true
           ∧ r_threat r = Some t
           ∧ r_alert r = Some a)
    ∧ ((score <=? 0.6)%float = true ->
         s' = s ∧ bg = [] ∧ r_threat_detected r = None
         ∧ r_threat r = None ∧ r_alert r = None).
Proof.
  intros [Hwf _]%reachable_wf s score.
  destruct (analyze_log_cases log_entry o s) as (r & s' & bg & E & _ & Hs & H).
  exists r, s', bg. split; [done|]. split; [done|].
  fold score in H. split.
  - intros Hhigh. rewrite Hhigh in H.
    destruct H as (t & a & Hh & Ha & Hhi & Hal & Hti & Hai & Hat & Hst & _ & _
                   & Hd & Hrt & Hra & _).
    destruct Hwf as (Hact & _ & Hid & Halid).
    assert (Hlen : length (active_threats s) = length (heap s))
      by (by fold s in Hact; rewrite Hact, length_seq).
    rewrite Hlen in Hti.
    exists t, a. repeat split; try done.
    + intros t0 [i Hi]%list_elem_of_lookup_1.
      rewrite Hti, (Hid _ _ Hi). apply lookup_lt_Some in Hi. lia.
    + intros a0 [i Hi]%list_elem_of_lookup_1.
      rewrite Hai, (Halid _ _ Hi). apply lookup_lt_Some in Hi. lia.
  - intros Hlow.
    rewrite (FloatFacts.leb_below score 0.6 0.6 Hlow eq_refl) in H.
    destruct H as (-> & Hd & Hrt & Hra & ->). done.
Qed.

Lemma analyze_log_creates_witness :
  let e := {| le_source := "fw1"; le_level := "CRITICAL";
              le_message := "brute force attack detected";
              le_metadata := [] |} in
  let o := {| noise := 0.05; pick := 2; now_log := "t0"; now_threat := "t0";
              now_alert := "t0" |} in
  ∃ r s' bg,
    analyze_log e o empty_store = (r, s', bg)
    ∧ (t_status <$> r_threat r) = Some active
    ∧ (a_threat_id <$> r_alert r) = (t_id <$> r_threat r)
    ∧ length (heap s') = 1.
Proof.
  intros e o.
  destruct (analyze_log_creates boot e o (ex_intro _ [] eq_refl))
    as (r & s' & bg & E & _ & Hhigh & _).
  destruct (Hhigh eq_refl) as (t & a & Hh & _ & _ & _ & Hst & _ & _ & _ & _
                               & Hat & _ & Hrt & Hra).
  exists r, s', bg. rewrite Hrt, Hra, Hh. simpl.
  split; [exact E|]. split; [by rewrite Hst|]. split; [by rewrite Hat|done].
Defined.

Import GrowFacts.

(** C4.  After any interleaving the identifiers of the threats, in the
    order of creation, are 1, 2, ..., n: they start at 1, increase strictly
    and are pairwise distinct; whatever happens next, the identifiers
    assigned so far stay as they are and new ones come after them, so none
    is used again.  The same holds for the identifiers of the alerts. *)
Theorem identifiers_increase (es es' : list Event) :
  let sys := exec es boot in
  let sys' := exec (es ++ es') boot in
  (threat_ids sys = ids_upto (length (threat_ids sys))
   ∧ StronglySorted Z.lt (threat_ids sys)
   ∧ NoDup (threat_ids sys)
   ∧ threat_ids sys `prefix_of` threat_ids sys')
  ∧ (alert_ids sys = ids_upto (length (alert_ids sys))
     ∧ StronglySorted Z.lt (alert_ids sys)
     ∧ NoDup (alert_ids sys)
     ∧ alert_ids sys `prefix_of` alert_ids sys').
Proof.
  intros sys sys'.
  assert (Hwf : sys_wf sys) by apply exec_wf, boot_wf.
  assert (Hwf' : sys_wf sys') by apply exec_wf, boot_wf.
  assert (Hgrow : grows (store sys) (store sys')).
  { unfold sys'. rewrite exec_app. apply exec_grows. }
  rewrite (threat_ids_wf sys Hwf), (threat_ids_wf sys' Hwf').
  rewrite (alert_ids_wf sys Hwf), (alert_ids_wf sys' Hwf').
  rewrite !ids_upto_length. destruct Hgrow as [Hh Ha].
  repeat split; auto using ids_upto_sorted, ids_upto_NoDup, ids_upto_prefix.
Qed.

Lemma alter_as_insert {A} (f : A -> A) (l : list A) i x :
  l !! i = Some x -> alter f i l = <[i := f x]> l.
Proof.
  intros Hx. apply list_eq. intros j.
  destruct (decide (i = j)) as [<-|Hne].
  - rewrite list_lookup_alter_eq, list_lookup_insert_eq, Hx; [done|].
    by eapply lookup_lt_Some.
  - by rewrite list_lookup_alter_ne, list_lookup_insert_ne.
Qed.

(** C5.  In any state of a run, POST /threats/{id}/respond fails with 404
    when no threat carries the identifier, and fails with 400, leaving the
    store as it is, when the threat that carries it is not active;
    otherwise it returns the success body, has set the status of that
    threat to responding and recorded the time of the call and the action
    in it, nothing else in the store being touched, and has scheduled the
    playbook coroutine for the identifier and the action. *)
Theorem respond_to_threat_outcomes
    (sys : System) (threat_id : Z) (response : ThreatResponse) (now : string) :
  reachable sys ->
  let s := store sys in
  let out := respond_to_threat threat_id response now s in
  ((∀ t, t ∈ heap s -> t_id t ≠ threat_id) ->
     out = (Py.HTTPException 404 "Threat not found", s, []))
  ∧ (∀ r t, heap s !! r = Some t -> t_id t = threat_id ->
       (t_status t ≠ active ->
          out = (Py.HTTPException 400 "Threat is not active", s, []))
       ∧ (t_status t = active ->
          let t' := Threat_.set_response_type (tr_action response)
                      (Threat_.set_response_initiated now
                         (Threat_.set_status responding t)) in
          ∃ resp s',
            out = (Py.Return resp, s',
                   [execute_response_playbook_start threat_id (tr_action response)])
            ∧ rr_status resp = "success"
            ∧ rr_response_type resp = tr_action response
            ∧ heap s' = <[r := t']> (heap s)
            ∧ t_status t' = responding
            ∧ t_response_initiated t' = Some now
            ∧ t_response_type t' = Some (tr_action response)
            ∧ active_threats s' = active_threats s
            ∧ threat_history s' = threat_history s
            ∧ system_alerts s' = system_alerts s)).
Proof.
  intros [Hwf _]%reachable_wf s out. split.
  - intros Hnone. apply (find_threat_None s threat_id Hwf) in Hnone.
    unfold out, respond_to_threat. by rewrite Hnone.
  - intros r t Ht Hid.
    assert (Hfind : Store_.find_threat s threat_id = Some r)
      by (apply find_threat_Some; eauto).
    unfold out, respond_to_threat. rewrite Hfind, Ht. simpl. split.
    + intros Hst. rewrite bool_decide_true by congruence. done.
    + intros Hst. rewrite bool_decide_false by (rewrite Hst; auto).
      eexists _, _. split; [reflexivity|]. simpl.
      repeat split; try done.
      rewrite (alter_as_insert _ _ _ _ Ht).
      rewrite (alter_as_insert _ (<[r:=_]> _) r
                 (Threat_.set_status responding t)).
      2: { apply list_lookup_insert_eq. by eapply lookup_lt_Some. }
      rewrite list_insert_insert_eq.
      rewrite (alter_as_insert _ (<[r:=_]> _) r
                 (Threat_.set_response_initiated now
                    (Threat_.set_status responding t))).
      2: { apply list_lookup_insert_eq. by eapply lookup_lt_Some. }
      by rewrite list_insert_insert_eq.
Qed.

Lemma respond_to_threat_outcomes_witness :
  let e := {| le_source := "fw1"; le_level := "CRITICAL";
              le_message := "brute force attack detected";
              le_metadata := [] |} in
  let o := {| noise := 0.05; pick := 2; now_log := "t0"; now_threat := "t0";
              now_alert := "t0" |} in
  let sys := exec [POST_analyze e o] boot in
  let response := {| tr_threat_id := 1; tr_action := "contain" |} in
  (respond_to_threat 9999 response "t1" (store sys)).1.1
    = Py.HTTPException 404 "Threat not found"
  ∧ ∃ resp s',
      (respond_to_threat 1 response "t1" (store sys)).1 = (Py.Return resp, s')
      ∧ rr_status resp = "success".
Proof.
  intros e o sys response.
  assert (Hreach : reachable sys) by (by exists [POST_analyze e o]).
  split.
  - destruct (respond_to_threat_outcomes sys 9999 response "t1" Hreach)
      as [H404 _].
    rewrite H404; [done|].
    intros t Ht. vm_compute in Ht.
    apply list_elem_of_singleton in Ht as ->. done.
  - destruct (respond_to_threat_outcomes sys 1 response "t1" Hreach)
      as [_ H].
    destruct (heap (store sys) !! 0) as [t|] eqn:Ht; [|by vm_compute in Ht].
    destruct (H 0 t Ht) as [_ Hok].
    { vm_compute in Ht. by injection Ht as <-. }
    destruct Hok as (resp & s' & E & Hs & _).
    { vm_compute in Ht. by injection Ht as <-. }
    exists resp, s'. by rewrite E.
Defined.

(** C7, as amended.  In any state of a run, marking an alert that is
    already read as read once more returns success and leaves the alert
    read; it is not idempotent: the read_timestamp of that alert is replaced
    by the time of this call, and nothing else in the store changes (every
    other key of the alert, every other alert, the threats and the two
    lists are as before).  Only when the clock reads what it read at the
    earlier call is the store unchanged altogether. *)
Theorem mark_alert_read_again
    (sys : System) (i : nat) (a : Alert) (now : string) :
  reachable sys ->
  system_alerts (store sys) !! i = Some a ->
  a_read a = true ->
  let s := store sys in
  let a' := Alert_.set_read_timestamp now a in
  ∃ s',
    mark_alert_read (a_id a) now s
      = (Py.Return {| rd_status := "success";
                      rd_message := "Alert marked as read" |}, s')
    ∧ system_alerts s' = <[i := a']> (system_alerts s)
    ∧ a_read a' = true
    ∧ a_read_timestamp a' = Some now
    ∧ heap s' = heap s
    ∧ active_threats s' = active_threats s
    ∧ threat_history s' = threat_history s
    ∧ (a_read_timestamp a = Some now -> s' = s).
Proof.
  intros [Hwf _]%reachable_wf Ha Hread. cbv zeta.
  generalize dependent (store sys). intros s Hwf Ha.
  set (a' := Alert_.set_read_timestamp now a).
  unfold mark_alert_read. rewrite (find_alert_wf s i a Hwf Ha).
  eexists. split; [reflexivity|].
  assert (Halerts :
    system_alerts
      (Store_.update_alert i (Alert_.set_read_timestamp now)
         (Store_.update_alert i (Alert_.set_read true) s))
    = <[i := a']> (system_alerts s)).
  { simpl. rewrite (alter_as_insert _ _ _ _ Ha).
    rewrite (alter_as_insert _ (<[i:=_]> _) i (Alert_.set_read true a)).
    2: { apply list_lookup_insert_eq. by eapply lookup_lt_Some. }
    rewrite list_insert_insert_eq. unfold a'.
    destruct a; simpl in *; by subst. }
  split; [exact Halerts|]. repeat split; try done.
  intros Hsame. destruct s as [h act hist al].
  unfold Store_.update_alert, Store_.set_system_alerts in *.
  simpl in *. f_equal. rewrite Halerts. apply list_insert_id.
  rewrite Ha. f_equal. unfold a'. destruct a; simpl in *; by subst.
Qed.

Lemma mark_alert_read_again_witness :
  let e := {| le_source := "fw1"; le_level := "CRITICAL";
              le_message := "brute force attack detected";
              le_metadata := [] |} in
  let o := {| noise := 0.05; pick := 2; now_log := "t0"; now_threat := "t0";
              now_alert := "t0" |} in
  let sys := exec [POST_analyze e o; PUT_alerts_read 1 "t1"] boot in
  ∃ s',
    mark_alert_read 1 "t2" (store sys)
      = (Py.Return {| rd_status := "success";
                      rd_message := "Alert marked as read" |}, s')
    ∧ (a_read <$> system_alerts s' !! 0) = Some true
    ∧ (a_read_timestamp <$> system_alerts s' !! 0) = Some (Some "t2").
Proof.
  intros e o sys.
  assert (Hreach : reachable sys)
    by (by exists [POST_analyze e o; PUT_alerts_read 1 "t1"]).
  destruct (system_alerts (store sys) !! 0) as [a|] eqn:Ha;
    [|by vm_compute in Ha].
  assert (Hid : a_id a = 1%Z ∧ a_read a = true)
    by (vm_compute in Ha; by injection Ha as <-).
  destruct Hid as [Hid Hread].
  destruct (mark_alert_read_again sys 0 a "t2" Hreach Ha Hread)
    as (s' & E & Hal & Hr & Hts & _).
  exists s'. rewrite <- Hid, E, Hal. split; [done|].
  rewrite list_lookup_insert_eq by (by eapply lookup_lt_Some).
  simpl. by rewrite Hread.
Defined.

(** C7, counterexample to the claim as stated.  One alert is raised and
    marked read at "t1"; marking it read again at "t2" returns success, and
    the alert is still read, but its read_timestamp is "t2" and no longer
    "t1": the second call changed the store. *)
Lemma mark_alert_read_not_idempotent :
  let e := {| le_source := "fw1"; le_level := "CRITICAL";
              le_message := "brute force attack detected";
              le_metadata := [] |} in
  let o := {| noise := 0.05; pick := 2; now_log := "t0"; now_threat := "t0";
              now_alert := "t0" |} in
  let s1 := store (exec [POST_analyze e o; PUT_alerts_read 1 "t1"] boot) in
  let out := mark_alert_read 1 "t2" s1 in
  (a_id <$> system_alerts s1 !! 0) = Some 1%Z
  ∧ (a_read <$> system_alerts s1 !! 0) = Some true
  ∧ (a_read_timestamp <$> system_alerts s1 !! 0) = Some (Some "t1")
  ∧ out.1 = Py.Return {| rd_status := "success";
                         rd_message := "Alert marked as read" |}
  ∧ (a_read <$> system_alerts out.2 !! 0) = Some true
  ∧ (a_read_timestamp <$> system_alerts out.2 !! 0) = Some (Some "t2")
  ∧ out.2 ≠ s1.
Proof.
  intros e o s1 out.
  split; [vm_compute; reflexivity|]. split; [vm_compute; reflexivity|].
  split; [vm_compute; reflexivity|]. split; [vm_compute; reflexivity|].
  split; [vm_compute; reflexivity|]. split; [vm_compute; reflexivity|].
  intros H.
  apply (f_equal (fun s => a_read_timestamp <$> system_alerts s !! 0)) in H.
  vm_compute in H. discriminate H.
Qed.

(** ** The history view *)

Module HistoryFacts.

Lemma deref_seq s j m :
  j + m ≤ length (heap s) ->
  Store_.deref s (seq j m) = take m (drop j (heap s)).
Proof.
  unfold Store_.deref. revert j; induction m as [|m IH]; intros j Hle.
  - by rewrite take_0.
  - destruct (lookup_lt_is_Some_2 (heap s) j) as [t Ht]; [lia|].
    simpl. rewrite Ht. simpl. rewrite IH by lia.
    by rewrite (drop_S _ _ _ Ht).
Qed.

Lemma slice_from_neg {A} (limit : Z) (l : list A) :
  (0 < limit)%Z ->
  Store_.slice_from (- limit) l = drop (length l - Z.to_nat limit) l.
Proof.
  intros Hpos. unfold Store_.slice_from.
  rewrite (proj2 (Z.ltb_lt _ _)) by lia. f_equal. lia.
Qed.

Lemma slice_from_zero {A} (l : list A) : Store_.slice_from (- 0) l = l.
Proof. unfold Store_.slice_from. simpl. by rewrite Z.min_l by lia. Qed.

(** For a positive limit the view is the last [limit] threats of the
    history, oldest first, or the whole history when it is shorter. *)
Lemma get_threat_history_positive (s : Store) (limit : Z) :
  store_wf s -> (0 < limit)%Z ->
  let n := length (heap s) in
  let r := get_threat_history limit s in
  r_threats r = drop (n - Z.to_nat limit) (heap s)
  ∧ length (r_threats r) = n `min` Z.to_nat limit
  ∧ r_total r = Z.of_nat n.
Proof.
  intros Hwf Hpos n r.
  assert (Hhist : threat_history s = seq 0 n) by apply Hwf.
  assert (E : r_threats r = drop (n - Z.to_nat limit) (heap s)).
  { unfold r, get_threat_history. simpl.
    rewrite slice_from_neg, Hhist, length_seq by done. fold n.
    rewrite drop_seq, deref_seq by (fold n; lia). simpl.
    apply take_ge. rewrite length_drop. fold n. lia. }
  split; [exact E|]. split.
  - rewrite E, length_drop. fold n. lia.
  - unfold r, get_threat_history. simpl. by rewrite Hhist, length_seq.
Qed.

(** With limit 0 the slice [threat_history[-0:]] is the whole list. *)
Lemma get_threat_history_zero (s : Store) :
  r_threats (get_threat_history 0 s) = Store_.deref s (threat_history s).
Proof. unfold get_threat_history. simpl. by rewrite slice_from_zero. Qed.

End HistoryFacts.

(** C8, at limit 0.  After one threat has been created, GET
    /threats/history?limit=0 returns that threat: one entry, where the
    limit allows none. *)
Theorem history_limit_zero_returns_all :
  let e := {| le_source := "fw1"; le_level := "CRITICAL";
              le_message := "brute force attack detected";
              le_metadata := [] |} in
  let o := {| noise := 0.05; pick := 2; now_log := "t0"; now_threat := "t0";
              now_alert := "t0" |} in
  let s := store (exec [POST_analyze e o] boot) in
  length (r_threats (get_threat_history 0 s)) = 1
  ∧ r_total (get_threat_history 0 s) = 1%Z
  ∧ ¬ (Z.of_nat (length (r_threats (get_threat_history 0 s))) ≤ 0)%Z.
Proof.
  intros e o s.
  assert (H : length (r_threats (get_threat_history 0 s)) = 1)
    by (rewrite HistoryFacts.get_threat_history_zero; vm_compute; reflexivity).
  split; [exact H|]. split; [vm_compute; reflexivity|].
  rewrite H. lia.
Qed.

(** ** Outputs of a run *)

Module OutputFacts.

Lemma run_cons e es sys :
  run (e :: es) sys =
    ((step e sys).1 :: (run es (step e sys).2).1, (run es (step e sys).2).2).
Proof.
  cbn [run]. destruct (step e sys) as [o sys']. cbn [fst snd].
  by destruct (run es sys').
Qed.

Lemma step_history e sys :
  length (threat_history (store (step e sys).2)) =
    length (threat_history (store sys))
    + (if creates_threat (step e sys).1 then 1 else 0).
Proof.
  destruct e as [log_entry o|limit|tid resp now|aid now|ms|k now]; simpl.
  - destruct (analyze_log_cases log_entry o (store sys))
      as (r & s' & bg & -> & _ & _ & H). simpl.
    destruct (0.6 <? _)%float.
    + destruct H as (t & a & _ & _ & -> & _ & _ & _ & _ & _ & _ & _ & _ & -> & _).
      by rewrite length_app.
    + destruct H as (-> & _ & -> & _). lia.
  - lia.
  - pose proof (respond_to_threat_frame tid resp now (store sys)) as H.
    destruct (respond_to_threat tid resp now (store sys)) as [[r s'] bg].
    simpl in *. destruct H as (_ & -> & _). lia.
  - pose proof (mark_alert_read_frame aid now (store sys)) as H.
    destruct (mark_alert_read aid now (store sys)) as [r s'].
    simpl in *. destruct H as (_ & -> & _). lia.
  - lia.
  - destruct (pending sys !! k) as [c|]; [|simpl; lia].
    destruct (due c (loop_time sys)); [|simpl; lia].
    pose proof (resume_frame c (loop_time sys) now (store sys)) as H.
    destruct (resume c (loop_time sys) now (store sys)) as [s' rest].
    simpl in *. destruct H as (_ & -> & _). lia.
Qed.

Lemma run_history es sys :
  length (threat_history (store (run es sys).2)) =
    length (threat_history (store sys)) + threats_created (run es sys).1.
Proof.
  revert sys; induction es as [|e es IH]; intros sys.
  - simpl. unfold threats_created. simpl. lia.
  - rewrite run_cons. cbn [fst snd]. rewrite IH, step_history.
    unfold threats_created. simpl.
    destruct (creates_threat (step e sys).1); simpl; lia.
Qed.

(** No output of a run from a well-formed state reports a resumption of
    [quarantine_email]. *)
Lemma run_never_quarantines es sys :
  sys_wf sys ->
  Forall (fun o => ∀ r w, o ≠ resumed (quarantine_email_sleep r w))
         (run es sys).1
  ∧ sys_wf (run es sys).2.
Proof.
  revert sys; induction es as [|e es IH]; intros sys Hwf.
  - simpl. split; [constructor|done].
  - rewrite run_cons. cbn [fst snd].
    destruct (IH _ (step_wf e sys Hwf)) as [Hos Hwf']. split; [|done].
    constructor; [|done]. intros r w.
    destruct e as [log_entry o|limit|tid resp now|aid now|ms|k now]; simpl;
      repeat case_match; try done.
    intros [= ->]. destruct Hwf as [_ Hpend].
    match goal with H : pending sys !! k = Some _ |- _ =>
      exact (Forall_lookup_1 _ _ _ _ Hpend H) end.
Qed.

End OutputFacts.

Import OutputFacts.

(** C9.  The log id that /analyze returns is the number of threats created
    so far plus one, whatever the number of calls so far; and there are
    two different calls in a row, neither of which creates a threat, that
    return the same log id. *)
Theorem log_id_counts_threats :
  (∀ es log_entry o,
     let '(os, sys) := run es boot in
     r_log_id (analyze_log log_entry o (store sys)).1.1
       = (Z.of_nat (threats_created os) + 1)%Z)
  ∧ ∃ e1 o1 e2 o2 r1 r2,
      (e1, o1) ≠ (e2, o2)
      ∧ (run [POST_analyze e1 o1; POST_analyze e2 o2] boot).1
          = [analyzed r1; analyzed r2]
      ∧ r_threat r1 = None ∧ r_threat r2 = None
      ∧ r_log_id r1 = r_log_id r2.
Proof.
  split.
  - intros es log_entry o.
    pose proof (run_history es boot) as H.
    destruct (run es boot) as [os sys]. simpl in H.
    destruct (analyze_log_cases log_entry o (store sys))
      as (r & s' & bg & -> & Hid & _). simpl. rewrite Hid. lia.
  - exists {| le_source := "app"; le_level := "INFO";
              le_message := "user logged in"; le_metadata := [] |},
           {| noise := 0; pick := 0; now_log := "t0"; now_threat := "t0";
              now_alert := "t0" |},
           {| le_source := "app"; le_level := "INFO";
              le_message := "user logged out"; le_metadata := [] |},
           {| noise := 0; pick := 0; now_log := "t1"; now_threat := "t1";
              now_alert := "t1" |}.
    eexists _, _. split; [by intros [=]|].
    split; [vm_compute; reflexivity|]. simpl. done.
Qed.

(** C10.  The email-quarantine step never runs.  In no interleaving is a
    coroutine resumed in, or left suspended in, [quarantine_email]; every
    pending automated response waits for a threat whose category is one of
    APT, Zero-day, Data Breach, DDoS, Malware, Brute Force.  The reason: a
    call of /analyze schedules the automated response only for a
    classification with immediate_action, such a classification is critical
    or high, and its category is drawn from those six, none of which is
    Phishing. *)
Theorem quarantine_email_never_runs :
  (∀ es,
     let '(os, sys) := run es boot in
     (∀ r w, resumed (quarantine_email_sleep r w) ∉ os)
     ∧ (∀ r w, quarantine_email_sleep r w ∉ pending sys)
     ∧ (∀ threat_id c,
          c ∈ pending sys ->
          c = initiate_automated_response_start threat_id
          ∨ (∃ w, c = initiate_automated_response_sleep1 threat_id w) ->
          ∃ t, t ∈ heap (store sys) ∧ t_id t = threat_id
               ∧ t_category t ∈ auto_categories))
  ∧ (∀ log_entry o s,
       let c := classify_threat (detect_anomaly log_entry (noise o))
                  (le_source log_entry) (pick o) in
       (analyze_log log_entry o s).2 ≠ [] ->
       c_immediate_action c = true
       ∧ (c_severity c = critical ∨ c_severity c = high)
       ∧ c_category c ∈ auto_categories)
  ∧ "Phishing" ∉ auto_categories.
Proof.
  split; [|split].
  - intros es.
    destruct (run_never_quarantines es boot boot_wf) as [Hos [_ Hpend]].
    destruct (run es boot) as [os sys]. simpl in *. split; [|split].
    + intros r w Hin. by apply (proj1 (Forall_forall _ _) Hos _ Hin r w).
    + intros r w Hin. by apply (proj1 (Forall_forall _ _) Hpend _ Hin).
    + intros threat_id c Hin Hc.
      pose proof (proj1 (Forall_forall _ _) Hpend _ Hin) as Hok.
      destruct Hc as [->|[w ->]]; destruct Hok as (r & t & Ht & Hid & Hcat);
        exists t; (split; [by eapply list_elem_of_lookup_2|done]).
  - intros log_entry o s c.
    destruct (analyze_log_cases log_entry o s) as (r & s' & bg & -> & _ & _ & H).
    simpl. fold c in H. destruct (0.6 <? _)%float.
    + destruct H as (t & a & _ & _ & _ & _ & _ & _ & _ & _ & _ & _ & _ & _ & _ & ->).
      destruct (c_immediate_action c) eqn:Him; [intros _|done].
      split; [done|]. split; [|by apply immediate_category].
      revert Him. unfold c. rewrite classify_threat_tiers.
      repeat case_match; simpl; auto; done.
    + by destruct H as (_ & _ & _ & _ & ->).
  - unfold auto_categories. rewrite !elem_of_cons, elem_of_nil.
    intros [H|[H|[H|[H|[H|[H|[]]]]]]]; discriminate H.
Qed.

(** ** The life cycle of a threat *)

Module LifecycleFacts.

(** Reads the threat at [r] after updates at [r0]: the goal splits on
    whether the two references are one. *)
Ltac heap_lookup r0 r Ht :=
  unfold Store_.update, Store_.set_heap; cbn [heap store snd fst];
  rewrite ?list_lookup_alter;
  destruct (decide (r0 = r)) as [->|?];
  [ rewrite ?decide_True by done; rewrite ?Ht; simpl
  | rewrite ?decide_False by done ].

Ltac unchanged t := exists t; repeat split; try done; by left.

Lemma status_after_update r f s i t :
  heap s !! i = Some t ->
  ∃ t', heap (Store_.update r f s) !! i = Some t'
        ∧ t' = (if decide (r = i) then f t else t).
Proof.
  intros Ht. rewrite update_heap. case_decide as E; [subst i|]; rewrite Ht; eauto.
Qed.

(** One event moves the status of a threat forward along active,
    responding, mitigating, resolved, or leaves it where it is, with one
    exception: the segment of [initiate_automated_response] that follows
    [sleep(1)] assigns [mitigating] whatever the status is, also to a
    threat that the playbook has resolved meanwhile. *)
Lemma step_status e sys r t :
  sys_wf sys ->
  heap (store sys) !! r = Some t ->
  ∃ t', heap (store (step e sys).2) !! r = Some t'
    ∧ t_id t' = t_id t
    ∧ (rank (t_status t) ≤ rank (t_status t')
       ∨ (t_status t = resolved ∧ t_status t' = mitigating
          ∧ ∃ k now wake, e = Resume k now
              ∧ pending sys !! k
                  = Some (initiate_automated_response_sleep1 (t_id t) wake)
              ∧ (wake ≤ loop_time sys)%Z)).
Proof.
  intros [Hwf Hpend] Ht.
  assert (Hrank3 : ∀ st, rank st ≤ 3) by (intros []; simpl; lia).
  destruct e as [log_entry o|limit|tid resp now|aid now|ms|k now]; simpl.
  - destruct (analyze_log_cases log_entry o (store sys))
      as (r0 & s' & bg & -> & _ & _ & H). simpl.
    destruct (0.6 <? _)%float.
    + destruct H as (t0 & a & -> & _). exists t.
      split; [by apply lookup_app_l_Some|]. split; [done|]. by left.
    + destruct H as (-> & _). unchanged t.
  - unchanged t.
  - unfold respond_to_threat.
    destruct (Store_.find_threat (store sys) tid) as [r0|] eqn:Hfind; simpl.
    2: unchanged t.
    case_bool_decide as Hst; simpl; [unchanged t|].
    heap_lookup r0 r Ht; [|unchanged t].
    eexists. split; [reflexivity|]. split; [done|]. left. simpl.
    rewrite Ht in Hst. simpl in Hst.
    destruct (t_status t); simpl; try lia; done.
  - destruct (mark_alert_read_frame aid now (store sys)) as (Hh & _).
    destruct (mark_alert_read aid now (store sys)) as [r0 s']. simpl in *.
    rewrite Hh. unchanged t.
  - unchanged t.
  - destruct (pending sys !! k) as [c|] eqn:Hk; [|unchanged t].
    destruct (due c (loop_time sys)) eqn:Hdue; [|unchanged t].
    destruct c as [threat_id|threat_id w|r0 w|r0 w|r0 w|r0 w|threat_id action
                   |r0 action w];
      unfold resume; cbv zeta.
    + unchanged t.
    + destruct (Store_.find_threat (store sys) threat_id) as [r0|] eqn:Hfind;
        [|unchanged t].
      apply find_threat_Some in Hfind as (t0 & Ht0 & Hid0); [|done].
      repeat case_match; simplify_eq/=.
      all: heap_lookup r0 r Ht; [|unchanged t].
      all: eexists; split; [reflexivity|]; split; [done|]; simpl.
      all: rewrite Ht in Ht0; injection Ht0 as <-.
      all: destruct (t_status t) eqn:Hst; simpl; try (left; lia).
      all: right; repeat split; try done; exists k, now, w.
      all: split; [done|]; split; [done|]; by apply Z.leb_le.
    + heap_lookup r0 r Ht; [|unchanged t].
      eexists. split; [reflexivity|]. split; [done|]. by left.
    + heap_lookup r0 r Ht; [|unchanged t].
      eexists. split; [reflexivity|]. split; [done|]. by left.
    + heap_lookup r0 r Ht; [|unchanged t].
      eexists. split; [reflexivity|]. split; [done|]. by left.
    + heap_lookup r0 r Ht; [|unchanged t].
      eexists. split; [reflexivity|]. split; [done|]. left. apply Hrank3.
    + destruct (Store_.find_threat (store sys) threat_id) as [r0|];
        [|unchanged t].
      heap_lookup r0 r Ht; [|unchanged t].
      eexists. split; [reflexivity|]. split; [done|]. by left.
    + heap_lookup r0 r Ht; [|unchanged t].
      eexists. split; [reflexivity|]. split; [done|]. left. apply Hrank3.
Qed.

(** A coroutine is never resumed before the end of its sleep. *)
Lemma resume_before_wake_is_idle k now sys c wake :
  pending sys !! k = Some c ->
  wake_time c = Some wake ->
  (loop_time sys < wake)%Z ->
  step (Resume k now) sys = (idle, sys).
Proof.
  intros Hk Hw Hlt. simpl. rewrite Hk. unfold due. rewrite Hw.
  by rewrite (proj2 (Z.leb_gt _ _)) by lia.
Qed.

(** Requests served by the handlers never move a status backward. *)
Lemma request_status_forward e sys r t :
  sys_wf sys ->
  heap (store sys) !! r = Some t ->
  (∀ k now, e ≠ Resume k now) ->
  ∃ t', heap (store (step e sys).2) !! r = Some t'
        ∧ rank (t_status t) ≤ rank (t_status t').
Proof.
  intros Hwf Ht Hreq.
  destruct (step_status e sys r t Hwf Ht) as (t' & Ht' & _ & [Hle|H]).
  - eauto.
  - destruct H as (_ & _ & k & now & w & -> & _). by destruct (Hreq k now).
Qed.

(** A threat whose category asks for no immediate action has no automated
    response pending: its status only moves forward, and once resolved it
    stays resolved. *)
Lemma status_forward_without_auto e sys r t :
  sys_wf sys ->
  heap (store sys) !! r = Some t ->
  t_category t ∉ auto_categories ->
  ∃ t', heap (store (step e sys).2) !! r = Some t'
        ∧ (t_category t' ∉ auto_categories)
        ∧ rank (t_status t) ≤ rank (t_status t').
Proof.
  intros Hwf Ht Hcat.
  assert (Hext : ∃ t', heap (store (step e sys).2) !! r = Some t'
                       ∧ t_category t' = t_category t).
  { destruct e as [log_entry o|limit|tid resp now|aid now|ms|k now]; simpl.
    - destruct (analyze_log_wf log_entry o (store sys) (proj1 Hwf))
        as (_ & E & _).
      destruct (analyze_log log_entry o (store sys)) as [[r0 s'] bg].
      destruct (E _ _ Ht) as (t' & ? & _ & ?). eauto.
    - eauto.
    - destruct (respond_to_threat_wf tid resp now (store sys) (proj1 Hwf))
        as (_ & E & _).
      destruct (respond_to_threat tid resp now (store sys)) as [[r0 s'] bg].
      destruct (E _ _ Ht) as (t' & ? & _ & ?). eauto.
    - destruct (mark_alert_read_frame aid now (store sys)) as (Hh & _).
      destruct (mark_alert_read aid now (store sys)) as [r0 s']. simpl in *.
      rewrite Hh. eauto.
    - eauto.
    - destruct (pending sys !! k) as [c|] eqn:Hk; [|eauto].
      destruct (due c (loop_time sys)); [|eauto].
      assert (Hc : coroutine_ok (store sys) c)
        by (eapply Forall_lookup_1; [apply Hwf|done]).
      destruct (resume_wf c (loop_time sys) now (store sys) (proj1 Hwf) Hc)
        as (_ & E & _).
      destruct (resume c (loop_time sys) now (store sys)) as [s' rest].
      destruct (E _ _ Ht) as (t' & ? & _ & ?). eauto. }
  destruct Hext as (t1 & Ht1 & Hc1).
  destruct (step_status e sys r t Hwf Ht) as (t' & Ht' & _ & [Hle|H]).
  - exists t'. split; [done|]. split; [|done]. congruence.
  - exfalso. destruct H as (_ & _ & k & now & w & _ & Hk & _).
    destruct Hwf as [Hwf Hpend].
    destruct (Forall_lookup_1 _ _ _ _ Hpend Hk) as (r0 & t0 & Ht0 & Hid & Hc0).
    assert (Hr : r0 = r) by (by eapply wf_same_ref). subst r0.
    apply Hcat. congruence.
Qed.

End LifecycleFacts.

(** C1, refuted by one interleaving in which every sleep lasts its full
    time.  A CRITICAL "brute force" event is analyzed (threat 1, category
    Brute Force, the automated response is handed to [background_tasks]);
    0.1 s later the operator responds to threat 1 and the playbook
    coroutine starts its 3 s sleep; the automated response is started only
    2.5 s after the analysis and starts its 1 s sleep; at 3.1 s the
    playbook resolves the threat; at 3.5 s the automated response wakes up
    and assigns [mitigating]: the status of threat 1 leaves [resolved] and
    moves backward. *)
Theorem resolved_threat_reopened :
  let e := {| le_source := "fw1"; le_level := "CRITICAL";
              le_message := "brute force attack detected";
              le_metadata := [] |} in
  let o := {| noise := 0.05; pick := 2; now_log := "t0"; now_threat := "t0";
              now_alert := "t0" |} in
  let es := [POST_analyze e o;
             Elapse 100;
             POST_threats_respond 1 {| tr_threat_id := 1;
                                       tr_action := "auto_mitigate" |} "t1";
             Resume 1 "t1";
             Elapse 2400;
             Resume 0 "t2";
             Elapse 600;
             Resume 1 "t3";
             Elapse 400;
             Resume 0 "t4"] in
  (run es boot).1
    = [analyzed (analyze_log e o empty_store).1.1;
       idle;
       responded (Py.Return
         {| rr_status := "success";
            rr_message := "Automated response initiated for threat 1";
            rr_response_type := "auto_mitigate" |});
       resumed (execute_response_playbook_start 1 "auto_mitigate");
       idle;
       resumed (initiate_automated_response_start 1);
       idle;
       resumed (execute_response_playbook_sleep3 0 "auto_mitigate" 3100);
       idle;
       resumed (initiate_automated_response_sleep1 1 3500)]
  ∧ status_trace 1 es boot
    = [Some active; Some active; Some responding; Some responding;
       Some responding; Some responding; Some responding; Some resolved;
       Some resolved; Some mitigating]
  ∧ status_of 1 (exec (take 9 es) boot) = Some resolved
  ∧ status_of 1 (exec es boot) = Some mitigating
  ∧ rank mitigating < rank resolved.
Proof.
  intros e o es. split; [vm_compute; reflexivity|].
  split; [vm_compute; reflexivity|].
  split; [vm_compute; reflexivity|].
  split; [vm_compute; reflexivity|].
  simpl. lia.
Qed.

(** * Further properties of the code *)

(** ** What a run keeps of the store *)

Module ProgressFacts.

Ltac same := repeat split; reflexivity.

Lemma same_creation_refl t : same_creation t t.
Proof. same. Qed.

Lemma same_creation_trans t1 t2 t3 :
  same_creation t1 t2 -> same_creation t2 t3 -> same_creation t1 t3.
Proof.
  unfold same_creation. intros (?&?&?&?&?&?&?&?&?) (?&?&?&?&?&?&?&?&?).
  repeat split; congruence.
Qed.

Lemma alert_evolves_refl a : alert_evolves a a.
Proof. repeat split; auto. Qed.

Lemma alert_evolves_trans a1 a2 a3 :
  alert_evolves a1 a2 -> alert_evolves a2 a3 -> alert_evolves a1 a3.
Proof.
  unfold alert_evolves. intros (?&?&?&?&?&?&?) (?&?&?&?&?&?&?).
  repeat split; try congruence. auto.
Qed.

Lemma progress_refl s : progress s s.
Proof.
  exists (heap s), [], (system_alerts s), []. rewrite !app_nil_r.
  repeat split; try done.
  - apply Forall_Forall2_diag, Forall_forall. intros. apply same_creation_refl.
  - apply Forall_Forall2_diag, Forall_forall. intros. apply alert_evolves_refl.
Qed.

Lemma progress_trans s1 s2 s3 : progress s1 s2 -> progress s2 s3 -> progress s1 s3.
Proof.
  intros (h & ts & al & als & Hh & Fh & Ha & Fa)
         (h' & ts' & al' & als' & Hh' & Fh' & Ha' & Fa').
  rewrite Hh in Fh'. rewrite Ha in Fa'.
  apply Forall2_app_inv_l in Fh' as (k1 & k2 & F1 & F2 & ->).
  apply Forall2_app_inv_l in Fa' as (b1 & b2 & G1 & G2 & ->).
  exists k1, (k2 ++ ts'), b1, (b2 ++ als').
  rewrite Hh', Ha', <- !app_assoc. repeat split; try done.
  - eapply Forall2_trans; [|done..]. apply same_creation_trans.
  - eapply Forall2_trans; [|done..]. apply alert_evolves_trans.
Qed.

(** An assignment to late keys or to [status] of one threat. *)
Lemma update_progress r f s :
  (∀ t, same_creation t (f t)) -> progress s (Store_.update r f s).
Proof.
  intros Hf. exists (alter f r (heap s)), [], (system_alerts s), [].
  rewrite !app_nil_r. repeat split; try done.
  - apply Forall2_alter_r.
    + apply Forall_Forall2_diag, Forall_forall. intros. apply same_creation_refl.
    + intros x y _ _ Hxy. eapply same_creation_trans; [done|apply Hf].
  - apply Forall_Forall2_diag, Forall_forall. intros. apply alert_evolves_refl.
Qed.

Lemma update_alert_progress i f s :
  (∀ a, alert_evolves a (f a)) -> progress s (Store_.update_alert i f s).
Proof.
  intros Hf. exists (heap s), [], (alter f i (system_alerts s)), [].
  rewrite !app_nil_r. repeat split; try done.
  - apply Forall_Forall2_diag, Forall_forall. intros. apply same_creation_refl.
  - apply Forall2_alter_r.
    + apply Forall_Forall2_diag, Forall_forall. intros. apply alert_evolves_refl.
    + intros x y _ _ Hxy. eapply alert_evolves_trans; [done|apply Hf].
Qed.

Ltac updates :=
  repeat first
    [ apply progress_refl
    | eapply progress_trans; [|apply update_progress; intros ?; same]
    | eapply progress_trans;
        [|apply update_alert_progress; intros ?; repeat split; auto] ].

Lemma resume_progress c time now s : progress s (resume c time now s).1.
Proof.
  destruct c; unfold resume; cbv zeta; repeat case_match; cbn [fst]; updates.
Qed.

Lemma respond_to_threat_progress threat_id response now s :
  progress s (respond_to_threat threat_id response now s).1.2.
Proof. unfold respond_to_threat. repeat case_match; cbn [fst snd]; updates. Qed.

Lemma mark_alert_read_progress alert_id now s :
  progress s (mark_alert_read alert_id now s).2.
Proof. unfold mark_alert_read. repeat case_match; cbn [snd]; updates. Qed.

Lemma analyze_log_progress log_entry o s :
  progress s (analyze_log log_entry o s).1.2.
Proof.
  destruct (analyze_log_cases log_entry o s) as (r & s' & bg & -> & _ & _ & H).
  cbn [fst snd]. destruct (0.6 <? _)%float.
  - destruct H as (t & a & Hh & _ & _ & Ha & _).
    exists (heap s), [t], (system_alerts s), [a]. repeat split; try done.
    + apply Forall_Forall2_diag, Forall_forall. intros. apply same_creation_refl.
    + apply Forall_Forall2_diag, Forall_forall. intros. apply alert_evolves_refl.
  - destruct H as (-> & _). apply progress_refl.
Qed.

Lemma step_progress e sys : progress (store sys) (store (step e sys).2).
Proof.
  destruct e as [log_entry o|limit|tid resp now|aid now|ms|k now]; simpl.
  - pose proof (analyze_log_progress log_entry o (store sys)) as H.
    by destruct (analyze_log log_entry o (store sys)) as [[r s'] bg].
  - apply progress_refl.
  - pose proof (respond_to_threat_progress tid resp now (store sys)) as H.
    by destruct (respond_to_threat tid resp now (store sys)) as [[r s'] bg].
  - pose proof (mark_alert_read_progress aid now (store sys)) as H.
    by destruct (mark_alert_read aid now (store sys)) as [r s'].
  - apply progress_refl.
  - destruct (pending sys !! k) as [c|]; [|apply progress_refl].
    destruct (due c (loop_time sys)); [|apply progress_refl].
    pose proof (resume_progress c (loop_time sys) now (store sys)) as H.
    by destruct (resume c (loop_time sys) now (store sys)) as [s' rest].
Qed.

Lemma exec_progress es sys : progress (store sys) (store (exec es sys)).
Proof.
  revert sys; induction es as [|e es IH]; intros sys.
  - apply progress_refl.
  - rewrite exec_cons. eapply progress_trans; [|apply IH]. apply step_progress.
Qed.

End ProgressFacts.

(** X1.  Whatever requests and background steps follow a run, the three
    lists of the program only grow at their end: [active_threats] and
    [threat_history] after the longer run start with the references they
    held before, in the same places, so no threat is deleted or reordered;
    the threat dicts they list start with the threats listed before, each
    with the values of the keys set at its creation (id, log id, timestamp,
    source, severity, category, confidence, risk level, description);
    [system_alerts] starts with the alerts it held before, each with its
    creation keys, and an alert that is read is never unread again. *)
Theorem run_keeps_creation (es es' : list Event) :
  let s := store (exec es boot) in
  let s' := store (exec (es ++ es') boot) in
  active_threats s `prefix_of` active_threats s'
  ∧ threat_history s `prefix_of` threat_history s'
  ∧ (∃ old new,
       Store_.deref s' (active_threats s') = old ++ new
       ∧ Forall2 same_creation (Store_.deref s (active_threats s)) old)
  ∧ (∃ old new,
       Store_.deref s' (threat_history s') = old ++ new
       ∧ Forall2 same_creation (Store_.deref s (threat_history s)) old)
  ∧ (∃ old new,
       system_alerts s' = old ++ new
       ∧ Forall2 alert_evolves (system_alerts s) old).
Proof.
  intros s s'.
  assert (Hwf : store_wf s) by apply exec_wf, boot_wf.
  assert (Hwf' : store_wf s') by apply exec_wf, boot_wf.
  assert (Hp : progress s s').
  { unfold s, s'. rewrite exec_app. apply ProgressFacts.exec_progress. }
  destruct Hp as (h & ts & al & als & Hheap & Hh & Hal & Ha).
  assert (Hlen : length (heap s') = length (heap s) + length ts).
  { rewrite Hheap, length_app. by rewrite (Forall2_length _ _ _ Hh). }
  assert (Hseq : seq 0 (length (heap s)) `prefix_of` seq 0 (length (heap s'))).
  { rewrite Hlen, seq_app. by eexists. }
  destruct Hwf as (Hact & Hhist & Hids), Hwf' as (Hact' & Hhist' & Hids').
  split; [by rewrite Hact, Hact'|].
  split; [by rewrite Hhist, Hhist'|].
  assert (Hd : Store_.deref s (active_threats s) = heap s)
    by (by apply deref_active).
  assert (Hd' : Store_.deref s' (active_threats s') = heap s')
    by (by apply deref_active).
  assert (He : Store_.deref s (threat_history s) = heap s)
    by (by apply deref_history).
  assert (He' : Store_.deref s' (threat_history s') = heap s')
    by (by apply deref_history).
  rewrite Hd, Hd', He, He'.
  split; [by exists h, ts|]. split; [by exists h, ts|]. by exists al, als.
Qed.

(** ** Consistency of the stored threats and alerts *)

Module ConsistencyFacts.
Import ProgressFacts.

Lemma SFltb_trans a b c :
  SFltb a b = true -> SFltb b c = true -> SFltb a c = true.
Proof.
  unfold SFltb.
  destruct a as [[]|[]| |[] ma ea], b as [[]|[]| |[] mb eb], c as [[]|[]| |[] mc ec];
    simpl; try congruence.
  all: FloatFacts.cmp_cases; simpl in *; try congruence; try lia.
Qed.

Lemma ltb_trans a b c :
  (a <? b)%float = true -> (b <? c)%float = true -> (a <? c)%float = true.
Proof. rewrite !ltb_spec. apply SFltb_trans. Qed.

(** The classification of any score agrees with itself; that of a score
    above the detection threshold 0.6 is never low. *)
Lemma classify_threat_consistent score source pick :
  let c := classify_threat score source pick in
  c_risk_level c = risk_of (c_severity c)
  ∧ c_category c ∈ vocabulary (c_severity c)
  ∧ c_immediate_action c = immediate_of (c_severity c)
  ∧ ((0.6 <? score)%float = true -> c_severity c ≠ low).
Proof.
  intros c. unfold c. rewrite classify_threat_tiers.
  destruct (0.9 <? score)%float; [|destruct (0.7 <? score)%float;
    [|destruct (0.5 <? score)%float eqn:E]]; simpl.
  - repeat split; try done. by apply choice_elem.
  - repeat split; try done. by apply choice_elem.
  - repeat split; try done. by apply choice_elem.
  - repeat split; try done; [repeat constructor|].
    intros H. rewrite (ltb_trans 0.5 0.6 score eq_refl H) in E. done.
Qed.

(** The threat and the alert that a detecting call of [analyze_log] adds. *)
Lemma analyze_log_created log_entry o s :
  let score := detect_anomaly log_entry (noise o) in
  let c := classify_threat score (le_source log_entry) (pick o) in
  (0.6 <? score)%float = true ->
  ∃ t a,
    heap (analyze_log log_entry o s).1.2 = heap s ++ [t]
    ∧ system_alerts (analyze_log log_entry o s).1.2 = system_alerts s ++ [a]
    ∧ t_id t = (Z.of_nat (length (active_threats s)) + 1)%Z
    ∧ t_log_id t = (Z.of_nat (length (threat_history s)) + 1)%Z
    ∧ t_source t = le_source log_entry
    ∧ t_severity t = c_severity c
    ∧ t_category t = c_category c
    ∧ t_risk_level t = c_risk_level c
    ∧ t_description t = t_category t +:+ " detected from " +:+ t_source t
    ∧ t_status t = active
    ∧ a_id a = (Z.of_nat (length (system_alerts s)) + 1)%Z
    ∧ a_threat_id a = t_id t
    ∧ a_severity a = t_severity t
    ∧ a_actions_required a = c_immediate_action c
    ∧ a_message a = "🚨 " +:+ t_category t +:+ " detected from " +:+ t_source t
    ∧ a_read a = false.
Proof.
  intros score c H. unfold analyze_log. fold score. rewrite H.
  eexists _, _. cbn [fst snd]. split; [reflexivity|]. split; [reflexivity|].
  repeat split.
Qed.

Lemma consistent_same_creation l h :
  Forall2 same_creation l h ->
  Forall threat_consistent l -> Forall threat_consistent h.
Proof.
  induction 1 as [|t t' l h Hs _ IH]; [done|].
  intros [Ht Hl]%Forall_cons. constructor; [|by apply IH].
  destruct Hs as (Hi&Hl'&_&Hso&Hse&Hc&_&Hr&Hd).
  destruct Ht as (H1&H2&H3&H4&H5).
  unfold threat_consistent. rewrite Hi, Hl', Hso, Hse, Hc, Hr, Hd. done.
Qed.

Lemma matches_evolves l al h al' :
  Forall2 alert_matches l al ->
  Forall2 same_creation l h ->
  Forall2 alert_evolves al al' ->
  Forall2 alert_matches h al'.
Proof.
  intros Hm Hs He.
  apply (Forall2_trans (flip same_creation) alert_matches alert_matches h l al')
    ; [..|by apply Forall2_flip|].
  - unfold flip. intros t' t a (Hi&_&_&Hso&Hse&Hc&_) (H1&H2&H3&H4&H5).
    unfold alert_matches. rewrite Hi, Hso, Hse, Hc. done.
  - apply (Forall2_trans alert_matches alert_evolves alert_matches l al al');
      [|done..].
    intros t a a' (H1&H2&H3&H4&H5) (G1&G2&G3&G4&_&G6&_).
    unfold alert_matches. rewrite G1, G2, G3, G4, G6. done.
Qed.

(** A step that creates nothing keeps the store consistent. *)
Lemma consistent_progress s s' :
  store_consistent s -> progress s s' ->
  length (heap s') = length (heap s) ->
  length (system_alerts s') = length (system_alerts s) ->
  store_consistent s'.
Proof.
  intros [Hc Hm] (h & ts & al & als & Hh & Fh & Ha & Fa) Lh La.
  assert (ts = []) as ->.
  { apply Forall2_length in Fh. rewrite Hh, length_app in Lh.
    apply nil_length_inv. lia. }
  assert (als = []) as ->.
  { apply Forall2_length in Fa. rewrite Ha, length_app in La.
    apply nil_length_inv. lia. }
  rewrite app_nil_r in Hh, Ha. unfold store_consistent. rewrite Hh, Ha.
  split; [by eapply consistent_same_creation|by eapply matches_evolves].
Qed.

Lemma step_consistent e sys :
  sys_wf sys -> store_consistent (store sys) ->
  store_consistent (store (step e sys).2).
Proof.
  intros [Hwf _] Hc.
  destruct e as [log_entry o|limit|tid resp now|aid now|ms|k now].
  - simpl.
    pose proof (analyze_log_created log_entry o (store sys)) as Hnew.
    pose proof (classify_threat_consistent
                  (detect_anomaly log_entry (noise o))
                  (le_source log_entry) (pick o)) as Hcl.
    destruct (analyze_log_cases log_entry o (store sys))
      as (r & s' & bg & E & _ & _ & H).
    rewrite E in Hnew. rewrite E. cbn [fst snd store] in *.
    destruct (0.6 <? _)%float eqn:Hscore.
    2: { by destruct H as (-> & _). }
    clear H. destruct (Hnew eq_refl)
      as (t & a & Hh & Ha & Hid & Hlog & Hso & Hse & Hcat & Hr & Hd & _
          & Haid & Hat & Has & Har & Ham & _).
    destruct Hcl as (C1 & C2 & C3 & C4). destruct Hc as [Hc Hm].
    destruct Hwf as (Hact & Hhist & _).
    assert (Lal : length (system_alerts (store sys)) = length (heap (store sys)))
      by (symmetry; by eapply Forall2_length).
    unfold store_consistent. rewrite Hh, Ha. split.
    + apply Forall_app. split; [done|]. constructor; [|done].
      unfold threat_consistent. rewrite Hd, Hlog, Hid, Hhist, Hact, Hse, Hcat, Hr.
      repeat split; try done. by apply C4.
    + apply Forall2_app; [done|]. constructor; [|done].
      unfold alert_matches. rewrite Ham, Haid, Hat, Has, Har, Hid, Hact, Lal, Hse.
      rewrite length_seq. done.
  - done.
  - pose proof (respond_to_threat_progress tid resp now (store sys)) as P.
    pose proof (respond_to_threat_frame tid resp now (store sys)) as F.
    simpl. destruct (respond_to_threat tid resp now (store sys)) as [[r s'] bg].
    cbn [fst snd store] in *. destruct F as (F1 & _ & _ & F2).
    eapply consistent_progress; [done..|by rewrite F1].
  - pose proof (mark_alert_read_progress aid now (store sys)) as P.
    pose proof (mark_alert_read_frame aid now (store sys)) as F.
    simpl. destruct (mark_alert_read aid now (store sys)) as [r s'].
    cbn [fst snd store] in *. destruct F as (F1 & _ & _ & F2).
    eapply consistent_progress; [done..|by rewrite F1|done].
  - done.
  - simpl. destruct (pending sys !! k) as [c|]; [|done].
    destruct (due c (loop_time sys)); [|done].
    pose proof (resume_progress c (loop_time sys) now (store sys)) as P.
    pose proof (resume_frame c (loop_time sys) now (store sys)) as F.
    destruct (resume c (loop_time sys) now (store sys)) as [s' rest].
    cbn [fst snd store] in *. destruct F as (F1 & _ & _ & F2).
    eapply consistent_progress; [done..|by rewrite F1].
Qed.

Lemma exec_consistent es sys :
  sys_wf sys -> store_consistent (store sys) ->
  store_consistent (store (exec es sys)).
Proof.
  revert sys; induction es as [|e es IH]; intros sys Hwf Hc; [done|].
  rewrite exec_cons. apply IH; [by apply step_wf|by apply step_consistent].
Qed.

Lemma boot_consistent : store_consistent (store boot).
Proof. split; constructor. Qed.

End ConsistencyFacts.

(** X2.  After any interleaving, every stored threat has log id equal to
    its id, a severity other than low (a threat is created only for a score
    above 0.6), the risk level of its severity (critical 5, high 4,
    medium 3), a category from the vocabulary of its severity and the
    description "<category> detected from <source>". *)
Theorem stored_threats_consistent (es : list Event) :
  Forall threat_consistent (heap (store (exec es boot))).
Proof.
  apply (ConsistencyFacts.exec_consistent es boot boot_wf),
    ConsistencyFacts.boot_consistent.
Qed.

(** X3.  After any interleaving there are as many alerts as threats, and
    the i-th alert is the one raised for the i-th threat: it has the
    threat's id as its own id and as its threat reference, the threat's
    severity, a message built from the threat's category and source, and
    asks for action exactly when the severity is critical or high. *)
Theorem alerts_match_threats (es : list Event) :
  let s := store (exec es boot) in
  Forall2 alert_matches (heap s) (system_alerts s)
  ∧ length (system_alerts s) = length (heap s).
Proof.
  intros s.
  destruct (ConsistencyFacts.exec_consistent es boot boot_wf
              ConsistencyFacts.boot_consistent) as [_ H].
  split; [exact H|]. symmetry. by eapply Forall2_length.
Qed.

(** ** The life cycle along a run *)

Module LifecycleRunFacts.
Import LifecycleFacts.

Lemma step_not_active e sys r t :
  sys_wf sys -> heap (store sys) !! r = Some t -> t_status t ≠ active ->
  ∃ t', heap (store (step e sys).2) !! r = Some t'
        ∧ t_id t' = t_id t ∧ t_status t' ≠ active.
Proof.
  intros Hwf Ht Hst.
  destruct (step_status e sys r t Hwf Ht) as (t' & Ht' & Hid & H).
  exists t'. split; [done|]. split; [done|].
  destruct H as [Hle|(_ & -> & _)]; [|done].
  destruct (t_status t), (t_status t'); simpl in Hle; try done; lia.
Qed.

Lemma exec_not_active es sys r t :
  sys_wf sys -> heap (store sys) !! r = Some t -> t_status t ≠ active ->
  ∃ t', heap (store (exec es sys)) !! r = Some t'
        ∧ t_id t' = t_id t ∧ t_status t' ≠ active.
Proof.
  revert sys t; induction es as [|e es IH]; intros sys t Hwf Ht Hst; [eauto|].
  rewrite exec_cons.
  destruct (step_not_active e sys r t Hwf Ht Hst) as (t1 & Ht1 & Hid1 & Hst1).
  destruct (IH _ t1 (step_wf e sys Hwf) Ht1 Hst1) as (t' & Ht' & Hid & Hst').
  exists t'. repeat split; try done. congruence.
Qed.

Lemma exec_forward_without_auto es sys r t :
  sys_wf sys -> heap (store sys) !! r = Some t ->
  t_category t ∉ auto_categories ->
  ∃ t', heap (store (exec es sys)) !! r = Some t'
        ∧ rank (t_status t) ≤ rank (t_status t').
Proof.
  revert sys t; induction es as [|e es IH]; intros sys t Hwf Ht Hc; [eauto|].
  rewrite exec_cons.
  destruct (status_forward_without_auto e sys r t Hwf Ht Hc)
    as (t1 & Ht1 & Hc1 & Hle1).
  destruct (IH _ t1 (step_wf e sys Hwf) Ht1 Hc1) as (t' & Ht' & Hle).
  exists t'. split; [done|]. lia.
Qed.

End LifecycleRunFacts.

(** X4.  Once a threat is not active it is never active again, so from
    then on POST /threats/{id}/respond for it fails with 400 and changes
    nothing, whatever happened in between: a threat is responded to at
    most once. *)
Theorem respond_fails_once_not_active
    (es es' : list Event) (r : nat) (t : Threat)
    (response : ThreatResponse) (now : string) :
  heap (store (exec es boot)) !! r = Some t ->
  t_status t ≠ active ->
  let s := store (exec (es ++ es') boot) in
  respond_to_threat (t_id t) response now s
    = (Py.HTTPException 400 "Threat is not active", s, []).
Proof.
  intros Ht Hst s.
  assert (Hwf : sys_wf (exec es boot)) by apply exec_wf, boot_wf.
  destruct (LifecycleRunFacts.exec_not_active es' _ r t Hwf Ht Hst)
    as (t' & Ht' & Hid & Hst').
  rewrite <- exec_app in Ht'. fold s in Ht'.
  assert (Hwf' : store_wf s) by apply exec_wf, boot_wf.
  assert (Hfind : Store_.find_threat s (t_id t) = Some r)
    by (apply find_threat_Some; eauto).
  unfold respond_to_threat. rewrite Hfind, Ht'. simpl.
  rewrite bool_decide_true by congruence. done.
Qed.

Lemma respond_fails_once_not_active_witness :
  let e := {| le_source := "fw1"; le_level := "CRITICAL";
              le_message := "brute force attack detected";
              le_metadata := [] |} in
  let o := {| noise := 0.05; pick := 2; now_log := "t0"; now_threat := "t0";
              now_alert := "t0" |} in
  let response := {| tr_threat_id := 1; tr_action := "contain" |} in
  let es := [POST_analyze e o; POST_threats_respond 1 response "t1"] in
  (respond_to_threat 1 response "t2"
     (store (exec (es ++ [Elapse 5]) boot))).1.1
    = Py.HTTPException 400 "Threat is not active".
Proof.
  intros e o response es.
  destruct (heap (store (exec es boot)) !! 0) as [t|] eqn:Ht;
    [|by vm_compute in Ht].
  assert (Hid : t_id t = 1%Z ∧ t_status t = responding)
    by (vm_compute in Ht; by injection Ht as <-).
  destruct Hid as [Hid Hst].
  rewrite <- Hid.
  rewrite (respond_fails_once_not_active es [Elapse 5] 0 t response "t2" Ht);
    [done|by rewrite Hst].
Defined.

(** X5.  One step of the application, a request or a segment of a
    coroutine, keeps the status of every threat or moves it forward along
    active, responding, mitigating, resolved; the one exception is the
    wake-up of [initiate_automated_response] from its first sleep on a
    threat that is already resolved, which sets it back to mitigating. *)
Theorem backward_only_by_automated_response
    (e : Event) (sys : System) (r : nat) (t : Threat) :
  reachable sys ->
  heap (store sys) !! r = Some t ->
  ∃ t', heap (store (step e sys).2) !! r = Some t'
    ∧ (rank (t_status t) ≤ rank (t_status t')
       ∨ (t_status t = resolved ∧ t_status t' = mitigating
          ∧ ∃ k now wake,
              e = Resume k now
              ∧ pending sys !! k
                  = Some (initiate_automated_response_sleep1 (t_id t) wake)
              ∧ (wake ≤ loop_time sys)%Z)).
Proof.
  intros Hwf%reachable_wf Ht.
  destruct (LifecycleFacts.step_status e sys r t Hwf Ht) as (t' & Ht' & _ & H).
  eauto.
Qed.

Lemma backward_only_by_automated_response_witness :
  let e := {| le_source := "fw1"; le_level := "CRITICAL";
              le_message := "brute force attack detected";
              le_metadata := [] |} in
  let o := {| noise := 0.05; pick := 2; now_log := "t0"; now_threat := "t0";
              now_alert := "t0" |} in
  let sys := exec [POST_analyze e o] boot in
  let ev := POST_threats_respond 1 {| tr_threat_id := 1;
                                      tr_action := "contain" |} "t1" in
  ∃ t', heap (store (step ev sys).2) !! 0 = Some t'
        ∧ rank active ≤ rank (t_status t').
Proof.
  intros e o sys ev.
  assert (Hreach : reachable sys) by (by exists [POST_analyze e o]).
  destruct (heap (store sys) !! 0) as [t|] eqn:Ht; [|by vm_compute in Ht].
  assert (Hst : t_status t = active)
    by (vm_compute in Ht; by injection Ht as <-).
  destruct (backward_only_by_automated_response ev sys 0 t Hreach Ht)
    as (t' & Ht' & [Hle|(Hres & _)]).
  - exists t'. split; [done|]. by rewrite <- Hst.
  - rewrite Hst in Hres. done.
Defined.

(** X6.  A threat of medium severity gets no automated response: along
    any interleaving its status only moves forward, and once it is resolved
    it stays resolved. *)
Theorem medium_threat_status_forward
    (es es' : list Event) (r : nat) (t : Threat) :
  heap (store (exec es boot)) !! r = Some t ->
  t_severity t = medium ->
  ∃ t', heap (store (exec (es ++ es') boot)) !! r = Some t'
        ∧ rank (t_status t) ≤ rank (t_status t')
        ∧ (t_status t = resolved -> t_status t' = resolved).
Proof.
  intros Ht Hsev.
  assert (Hwf : sys_wf (exec es boot)) by apply exec_wf, boot_wf.
  assert (Hcons : threat_consistent t).
  { pose proof (ConsistencyFacts.exec_consistent es boot boot_wf
                  ConsistencyFacts.boot_consistent) as [Hc _].
    by eapply (Forall_lookup_1 _ _ _ _ Hc). }
  assert (Hcat : t_category t ∉ auto_categories).
  { destruct Hcons as (_ & _ & _ & Hv & _). rewrite Hsev in Hv.
    simpl in Hv. unfold auto_categories.
    rewrite !elem_of_cons, elem_of_nil in *.
    intros [E|[E|[E|[E|[E|[E|[]]]]]]]; rewrite E in Hv;
      destruct Hv as [Hv|[Hv|[]]]; discriminate Hv. }
  destruct (LifecycleRunFacts.exec_forward_without_auto es' _ r t Hwf Ht Hcat)
    as (t' & Ht' & Hle).
  rewrite <- exec_app in Ht'. exists t'. split; [done|]. split; [done|].
  intros Hres. rewrite Hres in Hle.
  destruct (t_status t'); simpl in Hle; try lia. done.
Qed.

Lemma medium_threat_status_forward_witness :
  let e := {| le_source := "app"; le_level := "WARN";
              le_message := "malware signature"; le_metadata := [] |} in
  let o := {| noise := 0.05; pick := 0; now_log := "t0"; now_threat := "t0";
              now_alert := "t0" |} in
  let response := {| tr_threat_id := 1; tr_action := "investigate" |} in
  ∃ t', heap (store (exec ([POST_analyze e o]
                             ++ [POST_threats_respond 1 response "t1"]) boot))
          !! 0 = Some t'
        ∧ rank active ≤ rank (t_status t').
Proof.
  intros e o response.
  destruct (heap (store (exec [POST_analyze e o] boot)) !! 0) as [t|] eqn:Ht;
    [|by vm_compute in Ht].
  assert (H : t_severity t = medium ∧ t_status t = active)
    by (vm_compute in Ht; by injection Ht as <-).
  destruct H as [Hsev Hst].
  destruct (medium_threat_status_forward [POST_analyze e o]
              [POST_threats_respond 1 response "t1"] 0 t Ht Hsev)
    as (t' & Ht' & Hle & _).
  exists t'. split; [done|]. by rewrite <- Hst.
Defined.

(** ** The views: active threats, alerts, dashboard *)

Module ViewFacts.

Lemma filter_length_insert {A} (p : A -> bool) (l : list A) i x y :
  l !! i = Some x ->
  length (List.filter p (<[i:=y]> l)) + Nat.b2n (p x)
    = length (List.filter p l) + Nat.b2n (p y).
Proof.
  revert i; induction l as [|z l IH]; intros [|i] Hx; simplify_eq/=.
  - destruct (p x), (p y); simpl; lia.
  - specialize (IH i Hx). destruct (p z); simpl; lia.
Qed.

Lemma filter_length_le {A} (p : A -> bool) (l : list A) :
  length (List.filter p l) ≤ length l.
Proof. apply List.filter_length_le. Qed.

(** The four severity counts of the dashboard add up to the count of
    active threats. *)
Lemma levels_partition (is_active : Threat -> bool) (l : list Threat) :
  let level sev t := bool_decide (t_severity t = sev) && is_active t in
  (count_if (level critical) l + count_if (level high) l
   + count_if (level medium) l + count_if (level low) l
   = count_if is_active l)%Z.
Proof.
  intros level. subst level. unfold count_if.
  induction l as [|t l IH]; [done|]. cbn [List.filter].
  destruct (t_severity t), (is_active t); simpl; lia.
Qed.

Lemma no_low_threats (is_active : Threat -> bool) (l : list Threat) :
  Forall threat_consistent l ->
  count_if (fun t => bool_decide (t_severity t = low) && is_active t) l = 0%Z.
Proof.
  unfold count_if. induction 1 as [|t l Ht _ IH]; [done|]. simpl.
  destruct Ht as (_ & Hlow & _). rewrite bool_decide_false by done. done.
Qed.

Lemma respond_success_heap threat_id response now s r t :
  store_wf s -> heap s !! r = Some t -> t_id t = threat_id ->
  t_status t = active ->
  heap (respond_to_threat threat_id response now s).1.2
    = <[r := Threat_.set_response_type (tr_action response)
               (Threat_.set_response_initiated now
                  (Threat_.set_status responding t))]> (heap s).
Proof.
  intros Hwf Ht Hid Hst.
  assert (Hfind : Store_.find_threat s threat_id = Some r)
    by (apply find_threat_Some; eauto).
  unfold respond_to_threat. rewrite Hfind, Ht. simpl.
  rewrite bool_decide_false by (rewrite Hst; auto). simpl.
  rewrite (alter_as_insert _ _ _ _ Ht).
  rewrite (alter_as_insert _ (<[r:=_]> _) r (Threat_.set_status responding t)).
  2: { apply list_lookup_insert_eq. by eapply lookup_lt_Some. }
  rewrite list_insert_insert_eq.
  rewrite (alter_as_insert _ (<[r:=_]> _) r
             (Threat_.set_response_initiated now
                (Threat_.set_status responding t))).
  2: { apply list_lookup_insert_eq. by eapply lookup_lt_Some. }
  by rewrite list_insert_insert_eq.
Qed.

Lemma mark_alert_read_alerts now s i a :
  store_wf s -> system_alerts s !! i = Some a ->
  mark_alert_read (a_id a) now s
    = (Py.Return {| rd_status := "success";
                    rd_message := "Alert marked as read" |},
       Store_.set_system_alerts
         (<[i := Alert_.set_read_timestamp now (Alert_.set_read true a)]>
            (system_alerts s)) s).
Proof.
  intros Hwf Ha. unfold mark_alert_read. rewrite (find_alert_wf s i a Hwf Ha).
  f_equal. unfold Store_.update_alert. simpl.
  rewrite (alter_as_insert _ _ _ _ Ha).
  rewrite (alter_as_insert _ (<[i:=_]> _) i (Alert_.set_read true a)).
  2: { apply list_lookup_insert_eq. by eapply lookup_lt_Some. }
  rewrite list_insert_insert_eq. by destruct s.
Qed.

Lemma find_alert_out_of_range s alert_id :
  store_wf s ->
  ¬ (1 ≤ alert_id ≤ Z.of_nat (length (system_alerts s)))%Z ->
  Store_.find_alert s alert_id = None.
Proof.
  intros (_ & _ & _ & Hal) Hout. unfold Store_.find_alert.
  apply list_find_None, Forall_forall.
  intros a [i Ha]%list_elem_of_lookup_1 Heq.
  rewrite (Hal _ _ Ha) in Heq. apply lookup_lt_Some in Ha. lia.
Qed.

End ViewFacts.

(** X7.  After any interleaving the dashboard agrees with the other
    views: its count of active threats is the count GET /threats/active
    returns, its count of unread alerts is the one GET /alerts returns, the
    four severity counts add up to the count of active threats, the count
    for "low" is 0, and neither the active count nor the count of today's
    threats exceeds the total of the history. *)
Theorem dashboard_agrees_with_views
    (es : list Event) (today : nat -> string) (now : string)
    (unread_only : bool) (limit : Z) :
  let s := store (exec es boot) in
  let m := get_dashboard_metrics today now s in
  let levels := dm_threat_levels m in
  dm_active_threats m = ra_count (get_active_threats s)
  ∧ dm_unread_alerts m = al_unread_count (get_alerts unread_only s)
  ∧ (tl_critical levels + tl_high levels + tl_medium levels + tl_low levels
     = dm_active_threats m)%Z
  ∧ tl_low levels = 0%Z
  ∧ (0 ≤ dm_active_threats m ≤ r_total (get_threat_history limit s))%Z
  ∧ (0 ≤ dm_total_threats_today m ≤ r_total (get_threat_history limit s))%Z.
Proof.
  intros s m levels.
  assert (Hwf : store_wf s) by apply exec_wf, boot_wf.
  assert (Hcons : Forall threat_consistent (heap s))
    by apply (ConsistencyFacts.exec_consistent es boot boot_wf),
         ConsistencyFacts.boot_consistent.
  assert (Hlen : length (threat_history s) = length (heap s))
    by (destruct Hwf as (_ & -> & _); apply length_seq).
  split; [done|]. split; [by destruct unread_only|].
  split; [apply ViewFacts.levels_partition|].
  split.
  { unfold levels, m, get_dashboard_metrics. cbn [dm_threat_levels tl_low].
    rewrite deref_active by done. by apply ViewFacts.no_low_threats. }
  unfold m, get_dashboard_metrics, get_threat_history, count_if.
  cbn [dm_active_threats dm_total_threats_today r_total].
  rewrite deref_active, deref_history by done. rewrite Hlen. split.
  - pose proof (ViewFacts.filter_length_le
                  (fun t => bool_decide (t_status t = active)) (heap s)). lia.
  - pose proof (ViewFacts.filter_length_le
      (fun it : nat * Threat => bool_decide
         (String.substring 0 10 (t_timestamp it.2) = today it.1))
      (imap pair (heap s))) as H.
    rewrite length_imap in H. lia.
Qed.

(** X8.  In any state of a run, a successful POST /threats/{id}/respond
    takes the threat out of GET /threats/active: the count goes down by
    exactly one and no threat of the view carries the id any more. *)
Theorem respond_leaves_active_view
    (sys : System) (r : nat) (t : Threat)
    (response : ThreatResponse) (now : string) :
  reachable sys ->
  heap (store sys) !! r = Some t ->
  t_status t = active ->
  let s := store sys in
  let s' := (respond_to_threat (t_id t) response now s).1.2 in
  ra_count (get_active_threats s') = (ra_count (get_active_threats s) - 1)%Z
  ∧ Forall (fun t' => t_id t' ≠ t_id t) (ra_threats (get_active_threats s')).
Proof.
  intros [Hwf _]%reachable_wf Ht Hst s s'.
  pose proof (ViewFacts.respond_success_heap (t_id t) response now s r t
                Hwf Ht eq_refl Hst) as Hheap. fold s' in Hheap.
  assert (Hwf' : store_wf s')
    by (by apply (respond_to_threat_wf (t_id t) response now s)).
  unfold get_active_threats. cbn [ra_count ra_threats].
  rewrite !deref_active by done. rewrite Hheap. split.
  - pose proof (ViewFacts.filter_length_insert
      (fun t => bool_decide (t_status t = active)) (heap s) r t
      (Threat_.set_response_type (tr_action response)
         (Threat_.set_response_initiated now (Threat_.set_status responding t)))
      Ht) as H.
    simpl in H. rewrite (bool_decide_true _ Hst) in H. simpl in H. lia.
  - apply Forall_forall. intros t' Hin.
    apply list_elem_of_In, List.filter_In in Hin as [Hin Hact].
    apply list_elem_of_In, list_elem_of_lookup_1 in Hin as [j Hj].
    apply bool_decide_eq_true in Hact.
    destruct (decide (r = j)) as [<-|Hne].
    + rewrite list_lookup_insert_eq in Hj by (by eapply lookup_lt_Some).
      injection Hj as <-. done.
    + rewrite list_lookup_insert_ne in Hj by done.
      intros Heq. apply Hne. symmetry.
      by eapply (wf_same_ref s j r t' t).
Qed.

Lemma respond_leaves_active_view_witness :
  let e := {| le_source := "fw1"; le_level := "CRITICAL";
              le_message := "brute force attack detected";
              le_metadata := [] |} in
  let o := {| noise := 0.05; pick := 2; now_log := "t0"; now_threat := "t0";
              now_alert := "t0" |} in
  let response := {| tr_threat_id := 1; tr_action := "contain" |} in
  let s := store (exec [POST_analyze e o] boot) in
  ra_count (get_active_threats (respond_to_threat 1 response "t1" s).1.2)
    = (ra_count (get_active_threats s) - 1)%Z.
Proof.
  intros e o response s.
  assert (Hreach : reachable (exec [POST_analyze e o] boot))
    by (by exists [POST_analyze e o]).
  destruct (heap s !! 0) as [t|] eqn:Ht; [|by vm_compute in Ht].
  assert (H : t_id t = 1%Z ∧ t_status t = active)
    by (vm_compute in Ht; by injection Ht as <-).
  destruct H as [Hid Hst]. rewrite <- Hid at 1.
  exact (proj1 (respond_leaves_active_view _ 0 t response "t1" Hreach Ht Hst)).
Defined.

(** X9.  In any state of a run, marking an alert read lowers the unread
    count of GET /alerts by one when the alert was unread and leaves it as
    it is when the alert was read; and the unread-only listing holds only
    unread alerts, as many as the unread count says. *)
Theorem mark_alert_read_unread_count
    (sys : System) (i : nat) (a : Alert) (now : string) (unread_only : bool) :
  reachable sys ->
  system_alerts (store sys) !! i = Some a ->
  let s := store sys in
  let s' := (mark_alert_read (a_id a) now s).2 in
  al_unread_count (get_alerts unread_only s')
    = (al_unread_count (get_alerts unread_only s)
       - (if a_read a then 0 else 1))%Z
  ∧ Forall (fun a' => a_read a' = false) (al_alerts (get_alerts true s'))
  ∧ Z.of_nat (length (al_alerts (get_alerts true s')))
      = al_unread_count (get_alerts unread_only s').
Proof.
  intros [Hwf _]%reachable_wf Ha s s'.
  assert (Hs' : system_alerts s'
    = <[i := Alert_.set_read_timestamp now (Alert_.set_read true a)]>
        (system_alerts s)).
  { unfold s'. by rewrite (ViewFacts.mark_alert_read_alerts now s i a Hwf Ha). }
  split; [|split].
  - unfold get_alerts. cbn [al_unread_count]. rewrite Hs'.
    pose proof (ViewFacts.filter_length_insert (fun a => negb (a_read a))
      (system_alerts s) i a
      (Alert_.set_read_timestamp now (Alert_.set_read true a)) Ha) as H.
    simpl in H. destruct (a_read a); simpl in H; lia.
  - apply Forall_forall. intros a' Hin.
    apply list_elem_of_In, List.filter_In in Hin as [_ Hin].
    by apply negb_true_iff in Hin.
  - done.
Qed.

Lemma mark_alert_read_unread_count_witness :
  let e := {| le_source := "fw1"; le_level := "CRITICAL";
              le_message := "brute force attack detected";
              le_metadata := [] |} in
  let o := {| noise := 0.05; pick := 2; now_log := "t0"; now_threat := "t0";
              now_alert := "t0" |} in
  let s := store (exec [POST_analyze e o] boot) in
  al_unread_count (get_alerts false (mark_alert_read 1 "t1" s).2)
    = (al_unread_count (get_alerts false s) - 1)%Z.
Proof.
  intros e o s.
  assert (Hreach : reachable (exec [POST_analyze e o] boot))
    by (by exists [POST_analyze e o]).
  destruct (system_alerts s !! 0) as [a|] eqn:Ha; [|by vm_compute in Ha].
  assert (H : a_id a = 1%Z ∧ a_read a = false)
    by (vm_compute in Ha; by injection Ha as <-).
  destruct H as [Hid Hread]. rewrite <- Hid at 1.
  pose proof (proj1 (mark_alert_read_unread_count _ 0 a "t1" false Hreach Ha))
    as H.
  rewrite Hread in H. exact H.
Defined.

(** X10.  After any interleaving PUT /alerts/{id}/read succeeds exactly
    for the ids 1 to n, n the number of alerts; for any other id it fails
    with 404 and the store is as before. *)
Theorem mark_alert_read_succeeds_in_range
    (es : list Event) (alert_id : Z) (now : string) :
  let s := store (exec es boot) in
  let out := mark_alert_read alert_id now s in
  ((1 ≤ alert_id ≤ Z.of_nat (length (system_alerts s)))%Z ->
     out.1 = Py.Return {| rd_status := "success";
                          rd_message := "Alert marked as read" |}
     ∧ (a_read <$> system_alerts out.2 !! Z.to_nat (alert_id - 1)) = Some true)
  ∧ (¬ (1 ≤ alert_id ≤ Z.of_nat (length (system_alerts s)))%Z ->
     out = (Py.HTTPException 404 "Alert not found", s)).
Proof.
  intros s out.
  assert (Hwf : store_wf s) by apply exec_wf, boot_wf.
  split.
  - intros Hin. remember (Z.to_nat (alert_id - 1)) as i eqn:Hi.
    destruct (lookup_lt_is_Some_2 (system_alerts s) i) as [a Ha]; [lia|].
    assert (Hid : a_id a = alert_id).
    { destruct Hwf as (_ & _ & _ & Hal). rewrite (Hal _ _ Ha). lia. }
    unfold out. rewrite <- Hid.
    rewrite (ViewFacts.mark_alert_read_alerts now s i a Hwf Ha). simpl.
    split; [done|].
    by rewrite list_lookup_insert_eq by (by eapply lookup_lt_Some).
  - intros Hout. unfold out, mark_alert_read.
    by rewrite (ViewFacts.find_alert_out_of_range s alert_id Hwf Hout).
Qed.

(** ** The history view and the two lists of threats *)

Module HistoryFacts2.
Import HistoryFacts.

Lemma slice_from_pos {A} (k : Z) (l : list A) :
  (0 ≤ k)%Z -> Store_.slice_from k l = drop (Z.to_nat k) l.
Proof.
  intros Hk. unfold Store_.slice_from.
  rewrite (proj2 (Z.ltb_ge _ _)) by lia.
  destruct (decide (k ≤ Z.of_nat (length l))%Z).
  - by rewrite Z.min_l by lia.
  - rewrite Z.min_r, Nat2Z.id by lia. by rewrite !drop_ge by lia.
Qed.

Lemma deref_drop s k :
  store_wf s -> Store_.deref s (drop k (threat_history s)) = drop k (heap s).
Proof.
  intros Hwf. assert (Hhist : threat_history s = seq 0 (length (heap s)))
    by apply Hwf.
  rewrite Hhist, drop_seq.
  destruct (decide (k ≤ length (heap s))).
  - rewrite deref_seq by lia. simpl. apply take_ge. rewrite length_drop. lia.
  - replace (length (heap s) - k) with 0 by lia. simpl.
    by rewrite drop_ge by lia.
Qed.

End HistoryFacts2.

(** X11.  After any interleaving GET /threats/history with a positive
    limit N returns the last min(N, size) threats that were created, oldest
    first and each as it is now, with the size of the history as total. *)
Theorem history_positive_limit (es : list Event) (limit : Z) :
  (0 < limit)%Z ->
  let s := store (exec es boot) in
  let n := length (heap s) in
  let r := get_threat_history limit s in
  r_threats r = drop (n - Z.to_nat limit) (heap s)
  ∧ length (r_threats r) = n `min` Z.to_nat limit
  ∧ r_total r = Z.of_nat n.
Proof.
  intros Hpos s n r.
  apply HistoryFacts.get_threat_history_positive; [|done].
  apply exec_wf, boot_wf.
Qed.

Lemma history_positive_limit_witness :
  let e := {| le_source := "fw1"; le_level := "CRITICAL";
              le_message := "brute force attack detected";
              le_metadata := [] |} in
  let o := {| noise := 0.05; pick := 2; now_log := "t0"; now_threat := "t0";
              now_alert := "t0" |} in
  let s := store (exec [POST_analyze e o; POST_analyze e o; POST_analyze e o]
                    boot) in
  t_id <$> r_threats (get_threat_history 2 s) = [2; 3]%Z
  ∧ r_total (get_threat_history 2 s) = 3%Z.
Proof.
  intros e o s.
  destruct (history_positive_limit
              [POST_analyze e o; POST_analyze e o; POST_analyze e o] 2
              ltac:(lia)) as (H & _ & Ht).
  fold s in H, Ht. rewrite H, Ht. split; vm_compute; reflexivity.
Defined.

(** X12.  After any interleaving GET /threats/history with a negative
    limit -k does not fail: it returns the history without its k oldest
    threats (nothing when k is the size or more), since the slice
    [threat_history[k:]] is taken. *)
Theorem history_negative_limit (es : list Event) (limit : Z) :
  (limit < 0)%Z ->
  let s := store (exec es boot) in
  let r := get_threat_history limit s in
  r_threats r = drop (Z.to_nat (- limit)) (heap s)
  ∧ r_total r = Z.of_nat (length (heap s)).
Proof.
  intros Hneg s r.
  assert (Hwf : store_wf s) by apply exec_wf, boot_wf.
  unfold r, get_threat_history. cbn [r_threats r_total].
  rewrite HistoryFacts2.slice_from_pos by lia.
  rewrite HistoryFacts2.deref_drop by done. split; [done|].
  destruct Hwf as (_ & -> & _). by rewrite length_seq.
Qed.

Lemma history_negative_limit_witness :
  let e := {| le_source := "fw1"; le_level := "CRITICAL";
              le_message := "brute force attack detected";
              le_metadata := [] |} in
  let o := {| noise := 0.05; pick := 2; now_log := "t0"; now_threat := "t0";
              now_alert := "t0" |} in
  let s := store (exec [POST_analyze e o; POST_analyze e o; POST_analyze e o]
                    boot) in
  t_id <$> r_threats (get_threat_history (-1) s) = [2; 3]%Z.
Proof.
  intros e o s.
  destruct (history_negative_limit
              [POST_analyze e o; POST_analyze e o; POST_analyze e o] (-1)
              ltac:(lia)) as (H & _).
  fold s in H. rewrite H. vm_compute. reflexivity.
Defined.

(** X13.  After any interleaving the two lists [active_threats] and
    [threat_history] are equal: each holds every threat dict ever created,
    once and in the order of creation, and a threat stays in
    [active_threats] whatever its status, resolved included.  A change made
    through one list is seen through the other. *)
Theorem lists_alias_all_threats (es : list Event) :
  let s := store (exec es boot) in
  active_threats s = threat_history s
  ∧ NoDup (active_threats s)
  ∧ Store_.deref s (active_threats s) = heap s
  ∧ Store_.deref s (threat_history s) = heap s
  ∧ Z.of_nat (length (active_threats s))
      = Z.of_nat (threats_created (run es boot).1).
Proof.
  intros s.
  assert (Hwf : store_wf s) by apply exec_wf, boot_wf.
  pose proof (deref_active s Hwf) as Ha.
  pose proof (deref_history s Hwf) as Hh.
  pose proof (OutputFacts.run_history es boot) as Hrun.
  destruct Hwf as (Hact & Hhist & _).
  split; [congruence|]. split; [rewrite Hact; apply NoDup_seq|].
  split; [done|]. split; [done|].
  f_equal. rewrite Hact, <- Hhist. exact Hrun.
Qed.

(** ** Background coroutines run to their end *)

Module CoroutineFacts.

Lemma update_update r f g s :
  Store_.update r f (Store_.update r g s) = Store_.update r (f ∘ g) s.
Proof.
  unfold Store_.update, Store_.set_heap. simpl.
  by rewrite list_alter_alter_eq.
Qed.

Lemma update_as_insert r f s t :
  heap s !! r = Some t -> heap (Store_.update r f s) = <[r := f t]> (heap s).
Proof. intros Ht. simpl. by apply alter_as_insert. Qed.

Lemma update_find_threat r f s threat_id :
  keeps_identity f -> store_wf s ->
  Store_.find_threat (Store_.update r f s) threat_id
    = Store_.find_threat s threat_id.
Proof.
  intros Hf Hwf.
  rewrite (find_threat_wf _ _ Hwf), (find_threat_wf _ _ (update_wf r f s Hf Hwf)).
  simpl. by rewrite length_alter.
Qed.

Lemma playbook_actions_get action_type :
  Py.get playbook_actions action_type ["Default response"]
    = playbook_of action_type.
Proof.
  unfold Py.get, playbook_of, playbook_actions. simpl.
  repeat case_decide; simplify_map_eq; reflexivity.
Qed.

Lemma max_sleep time ms :
  (0 <= ms)%Z -> Z.max time (sleep_until time ms) = (time + ms)%Z.
Proof. unfold sleep_until. lia. Qed.

Lemma run_to_end_S fuel c time clock s :
  run_to_end (S fuel) c time clock s
    = let time := match wake_time c with
                  | Some wake => Z.max time wake
                  | None => time
                  end in
      match resume c time (clock time) s with
      | (s, Some c) => run_to_end fuel c time clock s
      | (s, None) => Some s
      end.
Proof. reflexivity. Qed.

(** The automated response, from its start to its end, as one
    assignment. *)
Lemma run_automated_response fuel s r t time clock :
  store_wf s -> heap s !! r = Some t ->
  run_to_end (4 + fuel) (initiate_automated_response_start (t_id t))
      time clock s
    = Some (Store_.update r
              (automated_response_result (clock (time + 1000)%Z)
                 (clock (time + response_duration (t_category t))%Z)) s).
Proof.
  intros Hwf Ht.
  assert (Hfind : Store_.find_threat s (t_id t) = Some r)
    by (apply find_threat_Some; eauto).
  assert (Hcat : ∀ now,
    default "" (t_category <$>
      heap (Store_.update r (Threat_.set_auto_response_started now)
             (Store_.update r (Threat_.set_status mitigating) s)) !! r)
      = t_category t).
  { intros now. rewrite !update_heap, !decide_True by done. by rewrite Ht. }
  assert (Hext : ∀ f g, f t = g t ->
            Store_.update r f s = Store_.update r g s).
  { intros f g Hfg. unfold Store_.update, Store_.set_heap. f_equal.
    apply list_alter_ext; [|done]. intros t0 Ht0. congruence. }
  replace (4 + fuel) with (S (S (S (S fuel)))) by lia.
  rewrite run_to_end_S. cbn [wake_time resume]. cbv zeta.
  rewrite run_to_end_S. cbn [wake_time resume]. cbv zeta.
  rewrite max_sleep by lia. rewrite Hfind, Hcat.
  unfold response_duration, automated_response_result, remediation_of.
  cbn [t_category Threat_.set_status Threat_.set_auto_response_started
       Threat_.set_late].
  destruct (Py.in_list (t_category t) ["DDoS"; "Brute Force"]) eqn:E1;
    [|destruct (Py.in_list (t_category t) ["Malware"; "APT"]) eqn:E2;
      [|destruct (bool_decide (t_category t = "Phishing")) eqn:E3]].
  1-3: rewrite run_to_end_S; cbn [wake_time resume]; cbv zeta;
       rewrite max_sleep by lia.
  all: rewrite run_to_end_S; cbn [wake_time resume]; cbv zeta;
       rewrite max_sleep by lia; rewrite !update_update; f_equal.
  1-3: replace (time + 1000 + 500 + 2000)%Z with (time + 3500)%Z by lia.
  4: replace (time + 1000 + 2000)%Z with (time + 3000)%Z by lia.
  all: apply Hext; simpl; rewrite ?E1, ?E2, ?E3; reflexivity.
Qed.

Lemma run_playbook fuel s r t action_type time clock :
  store_wf s -> heap s !! r = Some t ->
  run_to_end (2 + fuel) (execute_response_playbook_start (t_id t) action_type)
      time clock s
    = Some (Store_.update r
              (playbook_result action_type (clock (time + 3000)%Z)) s).
Proof.
  intros Hwf Ht.
  assert (Hfind : Store_.find_threat s (t_id t) = Some r)
    by (apply find_threat_Some; eauto).
  replace (2 + fuel) with (S (S fuel)) by lia.
  rewrite run_to_end_S. cbn [wake_time resume]. cbv zeta. rewrite Hfind.
  rewrite run_to_end_S. cbn [wake_time resume]. cbv zeta.
  rewrite max_sleep by lia.
  rewrite playbook_actions_get, !update_update. reflexivity.
Qed.

Lemma coroutine_live_extends s s' c :
  extends s s' -> coroutine_live s c -> coroutine_live s' c.
Proof.
  intros Hext.
  assert (Href : ∀ r, is_Some (heap s !! r) -> is_Some (heap s' !! r)).
  { intros r [t Ht]. destruct (Hext _ _ Ht) as (t' & Ht' & _). eauto. }
  destruct c; simpl; auto.
  all: intros (r & t & Ht & Hid); destruct (Hext _ _ Ht) as (t' & Ht' & Hi & _);
    exists r, t'; split; [done|congruence].
Qed.

Lemma resume_live c time now s :
  store_wf s -> coroutine_live s c ->
  ∀ c', (resume c time now s).2 = Some c' ->
        coroutine_live (resume c time now s).1 c'.
Proof.
  intros Hwf Hlive c'.
  assert (Hup : ∀ (r : nat) (f : Threat -> Threat) (l : list Threat),
                 is_Some (l !! r) -> is_Some (alter f r l !! r)).
  { intros r f l [t Ht]. rewrite list_lookup_alter_eq, Ht. eauto. }
  destruct c as [threat_id|threat_id w|r w|r w|r w|r w|threat_id action|r action w];
    unfold resume; cbv zeta.
  - simpl. by intros [= <-].
  - destruct (Store_.find_threat s threat_id) as [r|] eqn:Hfind; [|done].
    apply find_threat_Some in Hfind as (t & Ht & _); [|done].
    repeat case_match; simpl; intros [= <-]; simpl; apply Hup, Hup; eauto.
  - simpl. intros [= <-]. simpl. by apply Hup.
  - simpl. intros [= <-]. simpl. by apply Hup.
  - simpl. intros [= <-]. simpl. by apply Hup.
  - done.
  - destruct (Store_.find_threat s threat_id) as [r|] eqn:Hfind; [|done].
    apply find_threat_Some in Hfind as (t & Ht & _); [|done].
    simpl. intros [= <-]. simpl. apply Hup, Hup; eauto.
  - done.
Qed.

Lemma step_live e sys :
  sys_wf sys -> Forall (coroutine_live (store sys)) (pending sys) ->
  Forall (coroutine_live (store (step e sys).2)) (pending (step e sys).2).
Proof.
  intros [Hwf Hok] Hlive.
  destruct e as [log_entry o|limit|tid resp now|aid now|ms|k now]; simpl.
  - destruct (analyze_log_wf log_entry o (store sys) Hwf) as (W & E & _).
    destruct (analyze_log_cases log_entry o (store sys))
      as (r & s' & bg & Heq & _ & _ & H).
    rewrite Heq in *. simpl in *.
    apply Forall_app. split.
    + eapply Forall_impl; [done|]. intros c. by apply coroutine_live_extends.
    + destruct (0.6 <? _)%float.
      * destruct H as (t & a & Hheap & _ & _ & _ & _ & _ & _ & _ & _ & _ & _
                       & _ & _ & ->).
        destruct (c_immediate_action _); repeat constructor.
        simpl. exists (length (heap (store sys))), t.
        split; [|done]. rewrite Hheap. apply list_lookup_middle. done.
      * destruct H as (_ & _ & _ & _ & ->). constructor.
  - done.
  - pose proof (respond_to_threat_wf tid resp now (store sys) Hwf) as (W & E & _).
    assert (Hbg : Forall (coroutine_live (store sys))
                    (respond_to_threat tid resp now (store sys)).2).
    { unfold respond_to_threat.
      destruct (Store_.find_threat (store sys) tid) as [r|] eqn:Hfind;
        [|constructor].
      apply find_threat_Some in Hfind as (t & Ht & Hid); [|done].
      case_bool_decide; simpl; repeat constructor. simpl. eauto. }
    destruct (respond_to_threat tid resp now (store sys)) as [[r s'] bg];
      simpl in *.
    apply Forall_app. split.
    + eapply Forall_impl; [done|]. intros c. by apply coroutine_live_extends.
    + eapply Forall_impl; [done|]. intros c. by apply coroutine_live_extends.
  - destruct (mark_alert_read_wf aid now (store sys) Hwf) as (W & Hheap).
    destruct (mark_alert_read aid now (store sys)) as [r s']; simpl in *.
    eapply Forall_impl; [done|]. intros c. apply coroutine_live_extends.
    intros i t Ht. rewrite Hheap. eauto.
  - done.
  - destruct (pending sys !! k) as [c|] eqn:Hk; [|done].
    destruct (due c (loop_time sys)); [|done].
    assert (Hc : coroutine_ok (store sys) c) by (eapply Forall_lookup_1; done).
    assert (Hl : coroutine_live (store sys) c) by (eapply Forall_lookup_1; done).
    destruct (resume_wf c (loop_time sys) now (store sys) Hwf Hc) as (W & E & _).
    pose proof (resume_live c (loop_time sys) now (store sys) Hwf Hl) as R.
    destruct (resume c (loop_time sys) now (store sys)) as [s' rest]; simpl in *.
    assert (Hall : Forall (coroutine_live s') (pending sys)).
    { eapply Forall_impl; [done|]. intros c0. by apply coroutine_live_extends. }
    apply Forall_app. split; [by apply Forall_take|].
    apply Forall_app. split; [|by apply Forall_drop].
    destruct rest as [c'|]; simpl; [|constructor].
    constructor; [by apply R|constructor].
Qed.

Lemma exec_live es sys :
  sys_wf sys -> Forall (coroutine_live (store sys)) (pending sys) ->
  Forall (coroutine_live (store (exec es sys))) (pending (exec es sys)).
Proof.
  revert sys; induction es as [|e es IH]; intros sys Hwf Hl; [done|].
  rewrite exec_cons. apply IH; [by apply step_wf|by apply step_live].
Qed.

End CoroutineFacts.

(** X14.  The automated response run from its start to its end on a
    store in which the threat exists, with nothing in between, ends (four
    segments suffice) with the threat resolved.  auto_response_started is
    the clock one second after the start; resolved_timestamp is the clock
    3.5 seconds after the start when the category has a remediation step
    and 3 seconds after it otherwise; one remediation string is appended to
    response_actions according to the category (DDoS, Brute Force: IP
    blocked; Malware, APT: system isolated; Phishing: email quarantined; any
    other category: none); the keys set at creation, the alerts and the two
    lists are untouched. *)
Theorem automated_response_completes
    (fuel : nat) (s : Store) (r : nat) (t : Threat) (time : Z)
    (clock : Z -> string) :
  store_wf s ->
  heap s !! r = Some t ->
  ∃ s' t',
    run_to_end (4 + fuel) (initiate_automated_response_start (t_id t))
      time clock s = Some s'
    ∧ heap s' = <[r := t']> (heap s)
    ∧ t_status t' = resolved
    ∧ t_auto_response_started t' = Some (clock (time + 1000)%Z)
    ∧ t_resolved_timestamp t'
        = Some (clock (time + response_duration (t_category t))%Z)
    ∧ t_response_actions t'
        = match remediation_of (t_category t) with
          | Some action => Some (default [] (t_response_actions t) ++ [action])
          | None => t_response_actions t
          end
    ∧ same_creation t t'
    ∧ system_alerts s' = system_alerts s
    ∧ active_threats s' = active_threats s
    ∧ threat_history s' = threat_history s.
Proof.
  intros Hwf Ht.
  eexists _, (automated_response_result _ _ t).
  split; [by apply CoroutineFacts.run_automated_response|].
  split; [by apply CoroutineFacts.update_as_insert|].
  unfold automated_response_result. cbn [t_category Threat_.set_status
    Threat_.set_auto_response_started Threat_.set_late].
  destruct (remediation_of (t_category t)); repeat split; reflexivity.
Qed.

Lemma automated_response_completes_witness :
  let e := {| le_source := "fw1"; le_level := "CRITICAL";
              le_message := "brute force attack detected";
              le_metadata := [] |} in
  let o := {| noise := 0.05; pick := 2; now_log := "t0"; now_threat := "t0";
              now_alert := "t0" |} in
  let s := store (exec [POST_analyze e o] boot) in
  ∃ s' t', run_to_end 4 (initiate_automated_response_start 1) 0
             (fun time => pretty time) s = Some s'
        ∧ heap s' = [t']
        ∧ t_status t' = resolved
        ∧ t_resolved_timestamp t' = Some "3500"
        ∧ t_response_actions t' = Some ["IP address blocked at firewall"].
Proof.
  intros e o s.
  assert (Hwf : store_wf s) by apply exec_wf, boot_wf.
  destruct (heap s !! 0) as [t|] eqn:Ht; [|by vm_compute in Ht].
  assert (H : t_id t = 1%Z ∧ t_category t = "Brute Force"
              ∧ t_response_actions t = None ∧ heap s = [t]).
  { vm_compute in Ht. injection Ht as <-. repeat split. }
  destruct H as (Hid & Hcat & Hact & Hheap).
  destruct (automated_response_completes 0 s 0 t 0 (fun time => pretty time)
              Hwf Ht)
    as (s' & t' & Hrun & Hh & Hst & _ & Hrt & Hra & _).
  rewrite Hid in Hrun. exists s', t'.
  split; [exact Hrun|].
  rewrite Hh, Hheap, Hrt, Hra, Hcat, Hact.
  split; [reflexivity|]. split; [exact Hst|].
  split; vm_compute; reflexivity.
Defined.

(** X15.  The playbook coroutine run from its start to its end on a store
    in which the threat exists, with nothing in between, ends (two segments
    suffice) with the threat resolved: resolution_timestamp is the clock
    three seconds after the start, resolution_summary is "Threat resolved
    using <action> playbook", playbook_executed is the action, and
    response_actions is replaced by the three actions of the playbook
    (auto_mitigate, investigate, contain) or by ["Default response"] for any
    other action; what response_actions held before is lost. *)
Theorem playbook_completes
    (fuel : nat) (s : Store) (r : nat) (t : Threat) (action_type : string)
    (time : Z) (clock : Z -> string) :
  store_wf s ->
  heap s !! r = Some t ->
  ∃ s' t',
    run_to_end (2 + fuel) (execute_response_playbook_start (t_id t) action_type)
      time clock s = Some s'
    ∧ heap s' = <[r := t']> (heap s)
    ∧ t_status t' = resolved
    ∧ t_response_actions t' = Some (playbook_of action_type)
    ∧ t_playbook_executed t' = Some action_type
    ∧ t_resolution_timestamp t' = Some (clock (time + 3000)%Z)
    ∧ t_resolution_summary t'
        = Some ("Threat resolved using " +:+ action_type +:+ " playbook")
    ∧ same_creation t t'
    ∧ system_alerts s' = system_alerts s.
Proof.
  intros Hwf Ht.
  eexists _, (playbook_result action_type _ t).
  split; [by apply CoroutineFacts.run_playbook|].
  split; [by apply CoroutineFacts.update_as_insert|].
  repeat split; reflexivity.
Qed.

Lemma playbook_completes_witness :
  let e := {| le_source := "fw1"; le_level := "CRITICAL";
              le_message := "brute force attack detected";
              le_metadata := [] |} in
  let o := {| noise := 0.05; pick := 2; now_log := "t0"; now_threat := "t0";
              now_alert := "t0" |} in
  let s := store (exec [POST_analyze e o] boot) in
  ∃ s' t', run_to_end 2 (execute_response_playbook_start 1 "escalate") 0
             (fun time => pretty time) s = Some s'
        ∧ heap s' = [t']
        ∧ t_status t' = resolved
        ∧ t_response_actions t' = Some ["Default response"].
Proof.
  intros e o s.
  assert (Hwf : store_wf s) by apply exec_wf, boot_wf.
  destruct (heap s !! 0) as [t|] eqn:Ht; [|by vm_compute in Ht].
  assert (H : t_id t = 1%Z ∧ heap s = [t]).
  { vm_compute in Ht. injection Ht as <-. repeat split. }
  destruct H as (Hid & Hheap).
  destruct (playbook_completes 0 s 0 t "escalate" 0 (fun time => pretty time)
              Hwf Ht)
    as (s' & t' & Hrun & Hh & Hst & Hra & _).
  rewrite Hid in Hrun. exists s', t'.
  split; [exact Hrun|].
  rewrite Hh, Hheap, Hra.
  split; [reflexivity|]. split; [exact Hst|]. vm_compute. reflexivity.
Defined.

(** X16.  In every interleaving the threat a pending coroutine works on
    exists: the identifier it is about to look up is found in
    active_threats, and the dict it holds is in the store.  The branches of
    the two background tasks that return silently when the threat is not
    found are never taken. *)
Theorem pending_coroutine_finds_its_threat (es : list Event) :
  let sys := exec es boot in
  Forall (fun c => coroutine_live (store sys) c
                   ∧ finds_its_threat (store sys) c) (pending sys).
Proof.
  intros sys.
  assert (Hlive : Forall (coroutine_live (store sys)) (pending sys)).
  { apply CoroutineFacts.exec_live; [apply boot_wf|constructor]. }
  assert (Hwf : store_wf (store sys)) by apply exec_wf, boot_wf.
  eapply Forall_impl; [exact Hlive|].
  intros c Hc. split; [exact Hc|].
  unfold finds_its_threat.
  destruct c; simpl; try exact I; simpl in Hc;
    destruct Hc as (r & t & Ht & Hid);
    exists r; apply find_threat_Some; eauto.
Qed.

(** ** A detection followed by requests about it *)

Module RoundTripFacts.

Lemma respond_success threat_id response now s r t :
  store_wf s -> heap s !! r = Some t -> t_id t = threat_id ->
  t_status t = active ->
  (respond_to_threat threat_id response now s).1.1
    = Py.Return
        {| rr_status := "success";
           rr_message :=
             "Automated response initiated for threat " +:+ pretty threat_id;
           rr_response_type := tr_action response |}
  ∧ (respond_to_threat threat_id response now s).2
    = [execute_response_playbook_start threat_id (tr_action response)].
Proof.
  intros Hwf Ht Hid Hst.
  assert (Hfind : Store_.find_threat s threat_id = Some r)
    by (apply find_threat_Some; eauto).
  unfold respond_to_threat. rewrite Hfind, Ht. simpl.
  rewrite bool_decide_false by (rewrite Hst; auto). done.
Qed.

End RoundTripFacts.

(** X17.  After any interleaving, the threat and the alert that
    POST /analyze returns when it detects a threat can be used at once:
    POST /threats/{id}/respond with the identifier of the returned threat
    succeeds and schedules the playbook, PUT /alerts/{id}/read with the
    identifier of the returned alert succeeds, the threat is the last entry
    of GET /threats/active and the only entry of GET /threats/history with
    limit 1. *)
Theorem detection_round_trip
    (es : list Event) (log_entry : LogEntry) (o : Oracle)
    (response : ThreatResponse) (now : string) :
  let s := store (exec es boot) in
  let out := analyze_log log_entry o s in
  r_threat_detected out.1.1 = Some true ->
  ∃ t a,
    r_threat out.1.1 = Some t
    ∧ r_alert out.1.1 = Some a
    ∧ (respond_to_threat (t_id t) response now out.1.2).1.1
        = Py.Return
            {| rr_status := "success";
               rr_message :=
                 "Automated response initiated for threat " +:+ pretty (t_id t);
               rr_response_type := tr_action response |}
    ∧ (respond_to_threat (t_id t) response now out.1.2).2
        = [execute_response_playbook_start (t_id t) (tr_action response)]
    ∧ (mark_alert_read (a_id a) now out.1.2).1
        = Py.Return {| rd_status := "success";
                       rd_message := "Alert marked as read" |}
    ∧ ra_threats (get_active_threats out.1.2)
        = ra_threats (get_active_threats s) ++ [t]
    ∧ r_threats (get_threat_history 1 out.1.2) = [t].
Proof.
  intros s out Hdet.
  assert (Hwf : store_wf s) by apply exec_wf, boot_wf.
  destruct (analyze_log_wf log_entry o s Hwf) as (Hwf' & _ & _).
  destruct (analyze_log_cases log_entry o s) as (r & s' & bg & Heq & _ & _ & H).
  unfold out in *. rewrite Heq in *. simpl in *.
  destruct (0.6 <? _)%float.
  2: { destruct H as (_ & Hnone & _). congruence. }
  destruct H as (t & a & Hheap & _ & _ & Hal & _ & _ & _ & Hst & _ & _ & _
                 & Hrt & Hra & _).
  exists t, a. split; [done|]. split; [done|].
  assert (Ht : heap s' !! length (heap s) = Some t).
  { rewrite Hheap. by apply list_lookup_middle. }
  assert (Ha : system_alerts s' !! length (system_alerts s) = Some a).
  { rewrite Hal. by apply list_lookup_middle. }
  destruct (RoundTripFacts.respond_success (t_id t) response now s' _ t
              Hwf' Ht eq_refl Hst) as (-> & ->).
  split; [done|]. split; [done|].
  rewrite (ViewFacts.mark_alert_read_alerts now s' _ a Hwf' Ha).
  split; [done|]. split.
  - unfold get_active_threats. simpl.
    rewrite !deref_active, Hheap by done.
    rewrite List.filter_app. simpl. by rewrite Hst, bool_decide_true.
  - pose proof (HistoryFacts.get_threat_history_positive s' 1 Hwf') as Hh.
    cbv zeta in Hh. destruct Hh as (Hh & _); [lia|].
    change (r_threats (get_threat_history 1 s') = [t]). rewrite Hh.
    rewrite Hheap, length_app. simpl.
    replace (length (heap s) + 1 - Z.to_nat 1) with (length (heap s) + 0) by lia.
    by rewrite drop_app_add, drop_0.
Qed.

Lemma detection_round_trip_witness :
  let e := {| le_source := "fw1"; le_level := "CRITICAL";
              le_message := "brute force attack detected";
              le_metadata := [] |} in
  let o := {| noise := 0.05; pick := 2; now_log := "t0"; now_threat := "t0";
              now_alert := "t0" |} in
  let resp := {| tr_threat_id := 2; tr_action := "contain" |} in
  let s := (analyze_log e o (store (exec [POST_analyze e o] boot))).1.2 in
  (respond_to_threat 2 resp "t1" s).1.1
    = Py.Return
        {| rr_status := "success";
           rr_message := "Automated response initiated for threat 2";
           rr_response_type := "contain" |}
  ∧ (mark_alert_read 2 "t1" s).1
    = Py.Return {| rd_status := "success";
                   rd_message := "Alert marked as read" |}.
Proof.
  intros e o resp s.
  destruct (detection_round_trip [POST_analyze e o] e o resp "t1")
    as (t & a & Ht & Ha & Hr & _ & Hm & _).
  { vm_compute. reflexivity. }
  assert (Hid : t_id t = 2%Z).
  { vm_compute in Ht. injection Ht as <-. reflexivity. }
  assert (Hia : a_id a = 2%Z).
  { vm_compute in Ha. injection Ha as <-. reflexivity. }
  rewrite Hid in Hr. rewrite Hia in Hm.
  split; [exact Hr|exact Hm].
Defined.

(** ** The classifier is monotone *)

(** X18.  A higher score never gets a lower risk level: for scores
    s1 <= s2 (neither a NaN, as the comparison holds), whatever the source
    and the random picks, the risk level of s1 is at most the risk level of
    s2, and a score that asks for immediate action keeps asking for it when
    raised. *)
Theorem classify_threat_monotone
    (s1 s2 : float) (source1 source2 : string) (pick1 pick2 : nat) :
  (s1 <=? s2)%float = true ->
  let c1 := classify_threat s1 source1 pick1 in
  let c2 := classify_threat s2 source2 pick2 in
  (c_risk_level c1 ≤ c_risk_level c2)%Z
  ∧ (c_immediate_action c1 = true -> c_immediate_action c2 = true).
Proof.
  intros Hle c1 c2. unfold c1, c2, classify_threat.
  destruct (0.9 <? s1)%float eqn:E9.
  { rewrite (FloatFacts.ltb_leb_trans _ _ _ E9 Hle). simpl. split; [lia|done]. }
  destruct (0.7 <? s1)%float eqn:E7.
  { rewrite (FloatFacts.ltb_leb_trans _ _ _ E7 Hle).
    destruct (0.9 <? s2)%float; simpl; split; (lia || done). }
  destruct (0.5 <? s1)%float eqn:E5.
  { rewrite (FloatFacts.ltb_leb_trans _ _ _ E5 Hle).
    destruct (0.9 <? s2)%float, (0.7 <? s2)%float; simpl; split; (lia || done). }
  destruct (0.9 <? s2)%float, (0.7 <? s2)%float, (0.5 <? s2)%float; simpl;
    split; (lia || done).
Qed.

Lemma classify_threat_monotone_witness :
  (c_risk_level (classify_threat 0.65 "fw1" 0)
     ≤ c_risk_level (classify_threat 0.95 "fw2" 1))%Z.
Proof.
  apply (classify_threat_monotone 0.65 0.95 "fw1" "fw2" 0 1). reflexivity.
Defined.

(** ** The file-scan endpoint *)

Module ScanFacts.

Lemma endswith_spec s suffix :
  Py2.endswith s suffix = true <-> ∃ p, s = p +:+ suffix.
Proof.
  split.
  - induction s as [|c s IH]; cbn [Py2.endswith].
    + destruct (String.eqb "" suffix) eqn:E; [|done].
      apply String.eqb_eq in E as <-. by exists "".
    + destruct (String.eqb (String c s) suffix) eqn:E.
      * apply String.eqb_eq in E as <-. by exists "".
      * intros [p ->]%IH. exists (String c p). by rewrite StrFacts.app_cons.
  - intros [p ->]. induction p as [|c p IH].
    + rewrite StrFacts.app_nil.
      destruct suffix; cbn [Py2.endswith]; by rewrite String.eqb_refl.
    + rewrite StrFacts.app_cons. cbn [Py2.endswith]. rewrite IH.
      by destruct (String.eqb _ _).
Qed.

Lemma is_exe_spec filename :
  match filename with
  | Some (String c n) => Py2.endswith (Py.lower (String c n)) ".exe"
  | _ => false
  end = true <-> has_extension_exe filename.
Proof.
  unfold has_extension_exe. split.
  - destruct filename as [[|c n]|]; try done.
    intros [p Hp]%endswith_spec.
    apply StrFacts.lower_split in Hp as (a & b & -> & _ & Hb). eauto.
  - intros (name & ext & -> & Hext).
    assert (Hends : Py2.endswith (Py.lower (name +:+ ext)) ".exe" = true).
    { apply endswith_spec. exists (Py.lower name).
      by rewrite StrFacts.lower_app, Hext. }
    destruct (name +:+ ext) as [|c n] eqn:E; [|done].
    destruct name; [|by rewrite StrFacts.app_cons in E].
    rewrite StrFacts.app_nil in E. by subst.
Qed.

End ScanFacts.

(** X19.  POST /api/scan never answers 400: an upload with no content
    raises the 400 "Empty file uploaded" inside the try block, the except
    clause catches it, and the request fails with 500 and the detail
    "Scan failed: " followed by the text of the caught exception.  Any
    upload with content is answered with its size (positive), its hash,
    scan_status "completed", malware_detected false, and a file name and a
    file type that are never empty ("unknown" stands in). *)
Theorem scan_file_outcomes
    (sha256_hexdigest : list Byte.byte -> string)
    (str_HTTPException : Z -> string -> string) (file : UploadFile) :
  match scan_file sha256_hexdigest str_HTTPException file with
  | Py.Return r =>
      uf_content file ≠ []
      ∧ sr_file_size r = Z.of_nat (length (uf_content file))
      ∧ (0 < sr_file_size r)%Z
      ∧ sr_file_hash r = sha256_hexdigest (uf_content file)
      ∧ sr_scan_status r = "completed"
      ∧ sr_malware_detected r = false
      ∧ sr_file_name r ≠ ""
      ∧ as_file_type (sr_analysis_summary r) ≠ ""
  | Py.HTTPException status_code detail =>
      uf_content file = []
      ∧ status_code = 500%Z
      ∧ detail = "Scan failed: "
                 +:+ str_HTTPException 400%Z "Empty file uploaded"
  end.
Proof.
  assert (Hor : ∀ x, Py2.or_else x "unknown" ≠ "").
  { by intros [[|]|]. }
  unfold scan_file, scan_file_try. cbv zeta.
  match goal with
  | |- context [if ?b then "medium" else _] => generalize b
  end.
  intros is_exe.
  destruct (uf_content file) as [|b content] eqn:E; cbn -[String.app].
  - done.
  - repeat split; try done; try lia; try apply Hor.
    destruct is_exe; apply Hor.
Qed.

(** X20.  A scan that is answered reports threat_level "medium" and the
    suspicious pattern "Executable file" exactly when the upload has a file
    name that ends with ".exe" in any case of its letters, and "low" with no
    suspicious pattern otherwise; the other fields of the answer do not
    depend on the name. *)
Theorem scan_file_flags_executables
    (sha256_hexdigest : list Byte.byte -> string)
    (str_HTTPException : Z -> string -> string)
    (file : UploadFile) (r : ScanResult) :
  scan_file sha256_hexdigest str_HTTPException file = Py.Return r ->
  (has_extension_exe (uf_filename file)
   ∧ sr_threat_level r = "medium"
   ∧ as_suspicious_patterns (sr_analysis_summary r) = ["Executable file"])
  ∨ (¬ has_extension_exe (uf_filename file)
     ∧ sr_threat_level r = "low"
     ∧ as_suspicious_patterns (sr_analysis_summary r) = []).
Proof.
  unfold scan_file, scan_file_try. cbv zeta.
  destruct (bool_decide _); [done|].
  pose proof (ScanFacts.is_exe_spec (uf_filename file)) as Hspec.
  revert Hspec.
  match goal with
  | |- context [if ?b then "medium" else _] => generalize b
  end.
  intros is_exe Hspec. destruct is_exe; intros [= <-]; simpl.
  - left. split; [by apply Hspec|done].
  - right. split; [|done]. intros H. apply Hspec in H. done.
Qed.

Lemma scan_file_flags_executables_witness :
  let file := {| uf_filename := Some "Setup.EXE";
                 uf_content_type := None;
                 uf_content := [Byte.x4d; Byte.x5a] |} in
  ∃ r, scan_file (fun _ => "h") (fun _ d => d) file = Py.Return r
       ∧ sr_threat_level r = "medium".
Proof.
  intros file.
  destruct (scan_file (fun _ => "h") (fun _ d => d) file) as [r|] eqn:E;
    [|by vm_compute in E].
  exists r. split; [done|].
  destruct (scan_file_flags_executables _ _ file r E)
    as [(_ & H & _)|(Hno & _)]; [exact H|].
  exfalso. apply Hno. exists "Setup", ".EXE". split; reflexivity.
Defined.
